(** * SimpleVector: a growable array over an owned heap buffer

    Shallow embedding of [simple_vector.h].  A [SimpleVector<Type>] object is
    a record of its three data members; the buffer it owns lives in a heap of
    blocks, so that copies, moves and swaps of the owning pointer behave as in
    the C++ code.  Member functions are written in a small state-and-error
    monad over that heap: they can return, throw, or have undefined
    behaviour.

    Conventions of the model:
    - [size_t] is 64 bits wide and wraps around;
    - [new] always succeeds ([std::bad_alloc] is not modelled);
    - a failed [assert], an access outside a block or through a null or
      released pointer, and a comparison of pointers into different blocks
      are undefined behaviour;
    - arguments passed by reference to [PushBack] and [Insert] are values of
      the caller, never slots of the vector they are passed to. *)

From stdpp Require Import strings gmap list.
From Stdlib Require Import ZArith Lia.

Local Open Scope Z_scope.

(** ** Machine integers *)

(** [size_t] is taken to be 64 bits wide.  A value of that type is a [Z] in
    [0, SIZE_MAX]; unsigned arithmetic wraps around. *)
Definition SIZE_MAX : Z := 2 ^ 64 - 1.

(** No C++ array object has more than [PTRDIFF_MAX] elements. *)
Definition PTRDIFF_MAX : Z := 2 ^ 63 - 1.

Definition size_t (z : Z) : Z := z mod 2 ^ 64.

(** ** Exceptions and outcomes *)

Inductive exception : Type :=
| out_of_range (what_arg : string).

Section Container.

(** The element type, the value of [Type()] / [Type{}], and the state in which
    a move leaves the object it moved from (the identity for scalars, the
    empty string for [std::string], ...). *)
Context {Ty : Type}.
Variable Type_default : Ty.
Variable moved_from : Ty -> Ty.

(** The heap: every live array block, by address, with the contents of its
    slots. *)
Abbreviation heap := (gmap positive (list Ty)).

Inductive result (A : Type) : Type :=
| Ok (a : A) (h : heap)
| Throw (e : exception) (h : heap)
| Undefined.

Arguments Ok {A} a h.
Arguments Throw {A} e h.
Arguments Undefined {A}.

Definition M (A : Type) : Type := heap -> result A.

#[global] Instance M_ret : MRet M := fun A (a : A) h => Ok a h.

#[global] Instance M_bind : MBind M := fun A B (k : A -> M B) (m : M A) h =>
  match m h with
  | Ok a h' => k a h'
  | Throw e h' => Throw e h'
  | Undefined => Undefined
  end.

Definition throw {A} (e : exception) : M A := fun h => Throw e h.

Definition undefined {A} : M A := fun _ => Undefined.

(** [assert(b)]: a failed assertion aborts the program (debug build); what a
    release build does after the violated precondition is not modelled. *)
Definition assert (b : bool) : M unit :=
  if b then mret tt else undefined.

(** ** Pointers into blocks *)

(** A [Type*]: the block pointed into ([None] is the null pointer) and the
    offset inside it.  [Iterator] and [ConstIterator] are such pointers, and a
    [Type&] is represented the same way. *)
Record Iterator : Type := { block : option positive; index : Z }.

Definition ptr_add (p : Iterator) (n : Z) : Iterator :=
  {| block := block p; index := index p + n |}.

(** [p - q], for two pointers into the same block. *)
Definition ptr_diff (p q : Iterator) : Z := index p - index q.

(** Relational operators are only meaningful inside one block. *)
Definition ptr_le (p q : Iterator) : bool :=
  bool_decide (block p = block q) && (index p <=? index q).

Definition ptr_lt (p q : Iterator) : bool :=
  bool_decide (block p = block q) && (index p <? index q).

(** [*p] as an rvalue. *)
Definition load (p : Iterator) : M Ty :=
  fun h =>
    match block p with
    | None => Undefined
    | Some a =>
        match h !! a with
        | None => Undefined
        | Some l =>
            if 0 <=? index p then
              match l !! Z.to_nat (index p) with
              | Some x => Ok x h
              | None => Undefined
              end
            else Undefined
        end
    end.

(** [*p = x]. *)
Definition store (p : Iterator) (x : Ty) : M unit :=
  fun h =>
    match block p with
    | None => Undefined
    | Some a =>
        match h !! a with
        | None => Undefined
        | Some l =>
            if (0 <=? index p) && (index p <? Z.of_nat (length l)) then
              Ok tt (<[a := <[Z.to_nat (index p) := x]> l]> h)
            else Undefined
        end
    end.

(** ** ArrayPtr *)

(** Modelled from the spec: [array_ptr.h] (class [ArrayPtr], the OwnedBuffer
    of the specification) is not among the sources.  An [ArrayPtr] holds one
    raw pointer to a block it exclusively owns; capacity 0 holds no storage;
    a new block has [size] default-constructed slots; element access is
    unchecked; swap exchanges the pointers; a move leaves the source empty;
    destruction releases the block.  Allocation never fails here: the heap of
    the model is unbounded. *)
Abbreviation ArrayPtr := (option positive).

Definition nullptr : ArrayPtr := None.

Definition ArrayPtr_new (size : Z) : M ArrayPtr :=
  fun h =>
    if size =? 0 then Ok nullptr h
    else
      let a := fresh (dom h) in
      Ok (Some a) (<[a := replicate (Z.to_nat size) Type_default]> h).

(** [~ArrayPtr()]: [delete[] raw_ptr_]. *)
Definition ArrayPtr_delete (p : ArrayPtr) : M unit :=
  fun h =>
    match p with
    | None => Ok tt h
    | Some a =>
        match h !! a with
        | Some _ => Ok tt (delete a h)
        | None => Undefined
        end
    end.

(** [p.Get()]. *)
Definition Get (p : ArrayPtr) : Iterator := {| block := p; index := 0 |}.

(** [p[i]], the reference to slot [i]. *)
Definition ArrayPtr_index (p : ArrayPtr) (i : Z) : Iterator :=
  {| block := p; index := i |}.

(** [a.swap(b)] and [std::swap(a, b)]: the two pointers change places. *)
Definition ArrayPtr_swap (a b : ArrayPtr) : ArrayPtr * ArrayPtr := (b, a).

(** [ArrayPtr(std::move(src))]: the new pointer, and what is left in [src]. *)
Definition ArrayPtr_move (src : ArrayPtr) : ArrayPtr * ArrayPtr := (src, nullptr).

(** [dst = std::move(src)]: [dst] releases what it owned and takes over the
    block of [src]. *)
Definition ArrayPtr_move_assign (dst src : ArrayPtr) : M (ArrayPtr * ArrayPtr) :=
  ArrayPtr_delete dst;; mret (src, nullptr).

(** ** Algorithms of the standard library *)

(** [std::fill(first, first + n, value)]; [std::generate] with the generator
    [[]() { return Type(); }] is the same loop with [value := Type()]. *)
Fixpoint std_fill_n (n : nat) (first : Iterator) (value : Ty) : M unit :=
  match n with
  | O => mret tt
  | S n' => store first value;; std_fill_n n' (ptr_add first 1) value
  end.

Definition std_fill (first last : Iterator) (value : Ty) : M unit :=
  std_fill_n (Z.to_nat (ptr_diff last first)) first value.

(** [std::copy] out of a [std::initializer_list]. *)
Fixpoint std_copy_list (init_list : list Ty) (d_first : Iterator) : M unit :=
  match init_list with
  | [] => mret tt
  | x :: rest => store d_first x;; std_copy_list rest (ptr_add d_first 1)
  end.

(** [std::copy(first, first + n, d_first)]. *)
Fixpoint std_copy_n (n : nat) (first d_first : Iterator) : M unit :=
  match n with
  | O => mret tt
  | S n' =>
      x ← load first;
      store d_first x;;
      std_copy_n n' (ptr_add first 1) (ptr_add d_first 1)
  end.

Definition std_copy (first last d_first : Iterator) : M unit :=
  std_copy_n (Z.to_nat (ptr_diff last first)) first d_first.

(** [std::move(first, first + n, d_first)]: each slot of the source range is
    move-assigned to the next slot of the destination, first to last.  The
    class only calls the algorithms with [first <= last], so the length
    [last - first] of the range is the number of iterations. *)
Fixpoint std_move_n (n : nat) (first d_first : Iterator) : M unit :=
  match n with
  | O => mret tt
  | S n' =>
      x ← load first;
      store d_first x;;
      store first (moved_from x);;
      std_move_n n' (ptr_add first 1) (ptr_add d_first 1)
  end.

Definition std_move (first last d_first : Iterator) : M unit :=
  std_move_n (Z.to_nat (ptr_diff last first)) first d_first.



(** ** The class *)

(** The three data members.  [size_] and [capacity_] are [size_t] values. *)
Record SimpleVector : Type := {
  data_ : ArrayPtr;
  size_ : Z;
  capacity_ : Z
}.

(** Member functions take the object [*this] by value and return its new
    value next to their result; the heap is threaded by the monad. *)

Definition begin (this : SimpleVector) : Iterator := Get (data_ this).

Definition end_ (this : SimpleVector) : Iterator :=
  ptr_add (Get (data_ this)) (size_ this).

Definition cbegin (this : SimpleVector) : Iterator := Get (data_ this).

Definition cend (this : SimpleVector) : Iterator :=
  ptr_add (Get (data_ this)) (size_ this).

Definition GetSize (this : SimpleVector) : Z := size_ this.

Definition GetCapacity (this : SimpleVector) : Z := capacity_ this.

Definition IsEmpty (this : SimpleVector) : bool := size_ this =? 0.

(** *** Constructors *)

(** [SimpleVector() noexcept = default]: the default member initializers. *)
Definition SimpleVector_default : SimpleVector :=
  {| data_ := nullptr; size_ := 0; capacity_ := 0 |}.

(** [explicit SimpleVector(size_t size)]. *)
Definition SimpleVector_size (size : Z) : M SimpleVector :=
  data ← ArrayPtr_new size;
  std_fill (Get data) (ptr_add (Get data) size) Type_default;;
  mret {| data_ := data; size_ := size; capacity_ := size |}.

(** [SimpleVector(size_t size, const Type& value)]. *)
Definition SimpleVector_fill (size : Z) (value : Ty) : M SimpleVector :=
  data ← ArrayPtr_new size;
  std_fill (Get data) (ptr_add (Get data) size) value;;
  mret {| data_ := data; size_ := size; capacity_ := size |}.

(** [SimpleVector(std::initializer_list<Type> init_list)]. *)
Definition SimpleVector_init_list (init_list : list Ty) : M SimpleVector :=
  let n := Z.of_nat (length init_list) in
  data ← ArrayPtr_new n;
  std_copy_list init_list (Get data);;
  mret {| data_ := data; size_ := n; capacity_ := n |}.

(** [SimpleVector(const SimpleVector& other)].  The member initializer list
    names [data_] and [size_] only, so [capacity_] takes its default member
    initializer, 0. *)
Definition SimpleVector_copy (other : SimpleVector) : M SimpleVector :=
  data ← ArrayPtr_new (capacity_ other);
  std_copy (begin other) (end_ other) (Get data);;
  mret {| data_ := data; size_ := size_ other; capacity_ := 0 |}.

(** [SimpleVector(SimpleVector&& other) noexcept]: the new object, and what is
    left of [other]. *)
Definition SimpleVector_move (other : SimpleVector) : SimpleVector * SimpleVector :=
  let '(data, other_data) := ArrayPtr_move (data_ other) in
  ({| data_ := data; size_ := size_ other; capacity_ := capacity_ other |},
   {| data_ := other_data; size_ := 0; capacity_ := 0 |}).

(** [~SimpleVector()]: destroys the member [data_]. *)
Definition SimpleVector_destroy (this : SimpleVector) : M unit :=
  ArrayPtr_delete (data_ this).

(** *** Capacity *)

(** [void Reserve(size_t new_capacity)].  After [data_.swap(new_data)] the
    local [new_data] holds the old block, which its destructor releases. *)
Definition Reserve (new_capacity : Z) (this : SimpleVector) : M SimpleVector :=
  if capacity_ this <? new_capacity then
    new_data ← ArrayPtr_new new_capacity;
    std_move (begin this) (end_ this) (Get new_data);;
    let '(data, new_data') := ArrayPtr_swap (data_ this) new_data in
    ArrayPtr_delete new_data';;
    mret {| data_ := data; size_ := size_ this; capacity_ := new_capacity |}
  else mret this.

(** [explicit SimpleVector(ReserveProxy reserve_proxy)], with
    [reserve_size := reserve_proxy.GetReserveSize()]. *)
Definition SimpleVector_reserve (reserve_size : Z) : M SimpleVector :=
  Reserve reserve_size SimpleVector_default.

(** *** Element access *)

(** [operator[]]. *)
Definition subscript (index : Z) (this : SimpleVector) : M Iterator :=
  assert (index <? size_ this);;
  mret (ArrayPtr_index (data_ this) index).

(** [Type& At(size_t index)] and its const overload. *)
Definition At (index : Z) (this : SimpleVector) : M Iterator :=
  if size_ this <=? index then throw (out_of_range "Index out of range")
  else mret (ArrayPtr_index (data_ this) index).

(** *** Modifiers *)

Definition Clear (this : SimpleVector) : SimpleVector :=
  {| data_ := data_ this; size_ := 0; capacity_ := capacity_ this |}.

(** The loop [for (size_t i = size_; i < new_size; ++i) data_[i] = Type{};],
    with [n] iterations left. *)
Fixpoint Resize_loop (n : nat) (data : ArrayPtr) (i : Z) : M unit :=
  match n with
  | O => mret tt
  | S n' =>
      store (ArrayPtr_index data i) Type_default;;
      Resize_loop n' data (i + 1)
  end.

Definition Resize (new_size : Z) (this : SimpleVector) : M SimpleVector :=
  if new_size <=? size_ this then
    mret {| data_ := data_ this; size_ := new_size; capacity_ := capacity_ this |}
  else
    this' ←
      (if capacity_ this <? new_size then
         Reserve (if size_t (capacity_ this * 2) <? new_size then new_size
                  else size_t (capacity_ this * 2)) this
       else mret this);
    Resize_loop (Z.to_nat (new_size - size_ this')) (data_ this') (size_ this');;
    mret {| data_ := data_ this'; size_ := new_size; capacity_ := capacity_ this' |}.

(** The loop [for (size_t i = 0; i < size_; ++i) new_data[i] = data_[i];],
    with [n] iterations left. *)
Fixpoint PushBack_loop (n : nat) (new_data data : ArrayPtr) (i : Z) : M unit :=
  match n with
  | O => mret tt
  | S n' =>
      x ← load (ArrayPtr_index data i);
      store (ArrayPtr_index new_data i) x;;
      PushBack_loop n' new_data data (i + 1)
  end.

(** [void PushBack(const Type& item)].  [item] is a value of the caller, not a
    reference into the vector's own buffer.  After [std::swap(data_, new_data)]
    the local [new_data] holds the old block and releases it at the end of the
    [if]. *)
Definition PushBack (item : Ty) (this : SimpleVector) : M SimpleVector :=
  this' ←
    (if size_ this =? capacity_ this then
       let new_capacity :=
         if capacity_ this =? 0 then 1 else size_t (capacity_ this * 2) in
       new_data ← ArrayPtr_new new_capacity;
       PushBack_loop (Z.to_nat (size_ this)) new_data (data_ this) 0;;
       let '(data, new_data') := ArrayPtr_swap (data_ this) new_data in
       ArrayPtr_delete new_data';;
       mret {| data_ := data; size_ := size_ this; capacity_ := new_capacity |}
     else mret this);
  store (ArrayPtr_index (data_ this') (size_ this')) item;;
  mret {| data_ := data_ this';
          size_ := size_t (size_ this' + 1);
          capacity_ := capacity_ this' |}.

(** [void PushBack(Type&& item)]. *)
Definition PushBack_move (item : Ty) (this : SimpleVector) : M SimpleVector :=
  this' ←
    (if size_ this =? capacity_ this then
       Reserve (if capacity_ this =? 0 then 1 else size_t (capacity_ this * 2)) this
     else mret this);
  store (ArrayPtr_index (data_ this') (size_ this')) item;;
  mret {| data_ := data_ this';
          size_ := size_t (size_ this' + 1);
          capacity_ := capacity_ this' |}.


(** [void PopBack() noexcept]. *)
Definition PopBack (this : SimpleVector) : M SimpleVector :=
  assert (0 <? size_ this);;
  mret {| data_ := data_ this;
          size_ := size_t (size_ this - 1);
          capacity_ := capacity_ this |}.

(** [Iterator Erase(ConstIterator pos)]. *)
Definition Erase (pos : Iterator) (this : SimpleVector)
  : M (Iterator * SimpleVector) :=
  assert (ptr_le (begin this) pos && ptr_lt pos (end_ this));;
  let offset := ptr_diff pos (begin this) in
  std_move (ptr_add (begin this) (offset + 1)) (end_ this)
           (ptr_add (begin this) offset);;
  let this' := {| data_ := data_ this;
                  size_ := size_t (size_ this - 1);
                  capacity_ := capacity_ this |} in
  mret (ptr_add (begin this') offset, this').

(** [void swap(SimpleVector& other) noexcept]: the new [*this] and the new
    [other]. *)
Definition swap (this other : SimpleVector) : SimpleVector * SimpleVector :=
  let '(data, other_data) := ArrayPtr_swap (data_ this) (data_ other) in
  ({| data_ := data; size_ := size_ other; capacity_ := capacity_ other |},
   {| data_ := other_data; size_ := size_ this; capacity_ := capacity_ this |}).

(** *** Assignment *)

(** The assignment operators compare the addresses of the two operands, so
    they are modelled on a store of objects: [this] and [rhs] are the
    addresses of two [SimpleVector] objects, possibly the same one. *)
Abbreviation objects := (gmap positive SimpleVector).

(** [SimpleVector& operator=(const SimpleVector& rhs)].  The local [temp] is
    destroyed at the end of the [if], with the block [*this] used to own. *)
Definition assign_copy (this rhs : positive) (objs : objects) : M objects :=
  if bool_decide (this ≠ rhs) then
    match objs !! this, objs !! rhs with
    | Some t, Some r =>
        temp ← SimpleVector_copy r;
        let '(t', temp') := swap t temp in
        SimpleVector_destroy temp';;
        mret (<[this := t']> objs)
    | _, _ => undefined
    end
  else mret objs.

(** [SimpleVector& operator=(SimpleVector&& rhs) noexcept]. *)
Definition assign_move (this rhs : positive) (objs : objects) : M objects :=
  if bool_decide (this ≠ rhs) then
    match objs !! this, objs !! rhs with
    | Some t, Some r =>
        '(data, rhs_data) ← ArrayPtr_move_assign (data_ t) (data_ r);
        let t' := {| data_ := data; size_ := size_ r; capacity_ := capacity_ r |} in
        let r' := {| data_ := rhs_data; size_ := 0; capacity_ := 0 |} in
        mret (<[rhs := r']> (<[this := t']> objs))
    | _, _ => undefined
    end
  else mret objs.

(** ** Abstraction *)

(** The slots of the buffer an object points to; the null pointer has none. *)
Definition slots (this : SimpleVector) (h : heap) : option (list Ty) :=
  match data_ this with
  | None => Some []
  | Some a => h !! a
  end.

(** The live elements: the first [size_] slots, in order. *)
Definition elements (this : SimpleVector) (h : heap) : list Ty :=
  take (Z.to_nat (size_ this)) (default [] (slots this h)).

(** What every object the class can produce satisfies: its buffer is a live
    block that has room for [size_] elements and at least [capacity_] slots. *)
Definition valid (this : SimpleVector) (h : heap) : Prop :=
  ∃ buf, slots this h = Some buf
         ∧ 0 <= size_ this <= Z.of_nat (length buf)
         ∧ 0 <= capacity_ this <= Z.of_nat (length buf).

(** Invariant I1 of the specification. *)
Definition I1 (this : SimpleVector) : Prop := size_ this <= capacity_ this.

(** Capacities for which the doubling [capacity_ * 2] does not wrap. *)
Definition doubling_fits (this : SimpleVector) : Prop :=
  capacity_ this <= PTRDIFF_MAX.

(** The heap once the block of [p] has been released. *)
Definition released (p : ArrayPtr) (h : heap) : heap :=
  match p with
  | None => h
  | Some a => delete a h
  end.

(** What one push achieves. *)
Definition pushed (item : Ty) (this : SimpleVector) (h : heap)
    (this' : SimpleVector) (h' : heap) : Prop :=
  valid this' h'
  ∧ I1 this'
  ∧ size_ this' = size_ this + 1
  ∧ capacity_ this'
    = (if decide (size_ this = capacity_ this)
       then (if decide (capacity_ this = 0) then 1 else capacity_ this * 2)
       else capacity_ this)
  ∧ elements this' h' = elements this h ++ [item].

(** A caller's sequence of [PushBack] calls; each call picks one of the two
    overloads. *)
Inductive push : Type :=
| by_copy (item : Ty)
| by_move (item : Ty).

Definition pushed_item (p : push) : Ty :=
  match p with
  | by_copy item => item
  | by_move item => item
  end.

Definition PushBack_call (p : push) (this : SimpleVector) : M SimpleVector :=
  match p with
  | by_copy item => PushBack item this
  | by_move item => PushBack_move item this
  end.

Fixpoint PushBack_calls (ps : list push) (this : SimpleVector) : M SimpleVector :=
  match ps with
  | [] => mret this
  | p :: rest => this' ← PushBack_call p this; PushBack_calls rest this'
  end.


(** ** ReserveProxy and the reserving constructor *)

(** [class ReserveProxy]: one data member, set by the constructor. *)
Record ReserveProxy : Type := { reserve_size_ : Z }.

Definition GetReserveSize (reserve_proxy : ReserveProxy) : Z :=
  reserve_size_ reserve_proxy.

(** The free function [ReserveProxy Reserve(size_t capacity_to_reserve)]; the
    name [Reserve] is taken by the member function. *)
Definition Reserve_proxy (capacity_to_reserve : Z) : ReserveProxy :=
  {| reserve_size_ := capacity_to_reserve |}.

(** [explicit SimpleVector(ReserveProxy reserve_proxy)], on the proxy itself. *)
Definition SimpleVector_proxy (reserve_proxy : ReserveProxy) : M SimpleVector :=
  Reserve (GetReserveSize reserve_proxy) SimpleVector_default.

(** ** Comparison operators *)

(** [operator==] and [operator<] of the element type. *)
Variable Type_eqb : Ty -> Ty -> bool.
Variable Type_ltb : Ty -> Ty -> bool.

(** [std::equal(first1, first1 + n, first2)]: stops at the first pair of
    slots that are not equal. *)
Fixpoint std_equal_n (n : nat) (first1 first2 : Iterator) : M bool :=
  match n with
  | O => mret true
  | S n' =>
      x ← load first1;
      y ← load first2;
      if Type_eqb x y
      then std_equal_n n' (ptr_add first1 1) (ptr_add first2 1)
      else mret false
  end.

Definition std_equal (first1 last1 first2 : Iterator) : M bool :=
  std_equal_n (Z.to_nat (ptr_diff last1 first1)) first1 first2.

(** [std::lexicographical_compare(first1, first1 + n1, first2, first2 + n2)]:
    walks both ranges while neither is exhausted and returns at the first
    pair of slots that differ in either direction; when a range runs out,
    the first range is smaller exactly if it ran out and the second did
    not. *)
Fixpoint std_lexicographical_compare_n (n1 n2 : nat) (first1 first2 : Iterator)
  : M bool :=
  match n1, n2 with
  | S n1', S n2' =>
      x ← load first1;
      y ← load first2;
      if Type_ltb x y then mret true
      else if Type_ltb y x then mret false
      else std_lexicographical_compare_n n1' n2'
             (ptr_add first1 1) (ptr_add first2 1)
  | O, S _ => mret true
  | _, O => mret false
  end.

Definition std_lexicographical_compare (first1 last1 first2 last2 : Iterator)
  : M bool :=
  std_lexicographical_compare_n (Z.to_nat (ptr_diff last1 first1))
                                (Z.to_nat (ptr_diff last2 first2))
                                first1 first2.

(** [operator==]: [&&] evaluates [std::equal] only for equal sizes. *)
Definition operator_eq (lhs rhs : SimpleVector) : M bool :=
  if GetSize lhs =? GetSize rhs
  then std_equal (begin lhs) (end_ lhs) (begin rhs)
  else mret false.

(** [operator!=]. *)
Definition operator_ne (lhs rhs : SimpleVector) : M bool :=
  b ← operator_eq lhs rhs; mret (negb b).

(** [operator<]. *)
Definition operator_lt (lhs rhs : SimpleVector) : M bool :=
  std_lexicographical_compare (begin lhs) (end_ lhs) (begin rhs) (end_ rhs).

(** [operator<=]. *)
Definition operator_le (lhs rhs : SimpleVector) : M bool :=
  b ← operator_lt rhs lhs; mret (negb b).

(** [operator>]. *)
Definition operator_gt (lhs rhs : SimpleVector) : M bool :=
  operator_lt rhs lhs.

(** [operator>=]. *)
Definition operator_ge (lhs rhs : SimpleVector) : M bool :=
  b ← operator_lt lhs rhs; mret (negb b).

(** Lexicographic order on sequences, as a function on lists: what
    [operator<] is compared with. *)
Fixpoint lexicographic (xs ys : list Ty) : bool :=
  match xs, ys with
  | x :: xs', y :: ys' =>
      if Type_ltb x y then true
      else if Type_ltb y x then false
      else lexicographic xs' ys'
  | [], _ :: _ => true
  | _, [] => false
  end.

(** What a push does to the heap: blocks of other owners are left alone; a
    push into spare capacity keeps the buffer and allocates nothing; a push
    into a full vector moves to a new block and releases the old one. *)
Definition push_heap (this : SimpleVector) (h : heap)
    (this' : SimpleVector) (h' : heap) : Prop :=
  (forall b l, h !! b = Some l -> data_ this ≠ Some b -> h' !! b = Some l)
  ∧ (size_ this < capacity_ this ->
       data_ this' = data_ this ∧ dom h' = dom h)
  ∧ (size_ this = capacity_ this ->
       (forall o, data_ this = Some o -> h' !! o = None)
       ∧ (forall a, data_ this' = Some a -> h !! a = None)).

(** The range starting at [first] can be read and holds the values [xs], in
    order. *)
Definition readable (first : Iterator) (h : heap) (xs : list Ty) : Prop :=
  forall (k : nat) x, xs !! k = Some x ->
    load (ptr_add first (Z.of_nat k)) h = Ok x h.

(** ** Example states *)

(** A vector of [int] with reserve slack, as left by [Reserve(4)],
    [PushBack(7)], [PushBack(8)] on an empty vector in an empty heap. *)
Definition example_slack : SimpleVector :=
  {| data_ := Some 1%positive; size_ := 2; capacity_ := 4 |}.

Definition example_slack_heap : gmap positive (list Z) :=
  {[ 1%positive := [7; 8; 0; 0] ]}.

(** A full vector of [int], as constructed from the list [{5, 6}] in an empty
    heap. *)
Definition example_full : SimpleVector :=
  {| data_ := Some 1%positive; size_ := 2; capacity_ := 2 |}.

Definition example_full_heap : gmap positive (list Z) :=
  {[ 1%positive := [5; 6] ]}.

(** A second vector, holding [{7, 8, 9}], next to the first one in one heap,
    and the two as objects at the addresses 1 and 2. *)
Definition example_three : SimpleVector :=
  {| data_ := Some 2%positive; size_ := 3; capacity_ := 3 |}.

Definition example_pair_heap : gmap positive (list Z) :=
  {[ 1%positive := [7; 8; 0; 0]; 2%positive := [7; 8; 9] ]}.

Definition example_objects : gmap positive SimpleVector :=
  {[ 1%positive := example_slack; 2%positive := example_three ]}.

(** ** The monad *)

Lemma bind_Ok {A B} (m : M A) (k : A -> M B) h a h' :
  m h = Ok a h' -> (m ≫= k) h = k a h'.
Proof. intros E. unfold mbind, M_bind. by rewrite E. Qed.

Lemma size_t_small z : 0 <= z <= SIZE_MAX -> size_t z = z.
Proof. unfold size_t, SIZE_MAX. intros ?. apply Z.mod_small. lia. Qed.

(** ** Loads and stores *)

Lemma load_Ok p a (i : nat) l x h :
  block p = Some a -> index p = Z.of_nat i ->
  h !! a = Some l -> l !! i = Some x ->
  load p h = Ok x h.
Proof.
  intros Hb Hi Ha Hx. unfold load. rewrite Hb, Ha, Hi.
  rewrite Nat2Z.id, Hx.
  destruct (0 <=? Z.of_nat i) eqn:E; [done | lia].
Qed.

Lemma store_Ok p a (i : nat) l x h :
  block p = Some a -> index p = Z.of_nat i ->
  h !! a = Some l -> (i < length l)%nat ->
  store p x h = Ok tt (<[a := <[i := x]> l]> h).
Proof.
  intros Hb Hi Ha Hlt. unfold store. rewrite Hb, Ha, Hi, Nat2Z.id.
  destruct (0 <=? Z.of_nat i) eqn:E1; [| lia].
  destruct (Z.of_nat i <? Z.of_nat (length l)) eqn:E2; [done | lia].
Qed.

(** ** The loops *)

(** Copying [n] slots, from index [i] on, between two different blocks. *)
Lemma std_copy_n_spec n : forall first d_first a b (i : nat) la lb h,
  block first = Some a -> index first = Z.of_nat i ->
  block d_first = Some b -> index d_first = Z.of_nat i ->
  a ≠ b -> h !! a = Some la -> h !! b = Some lb ->
  (i + n <= length la)%nat -> (i + n <= length lb)%nat ->
  ∃ lb', std_copy_n n first d_first h = Ok tt (<[b := lb']> h)
         ∧ length lb' = length lb
         ∧ ∀ k, lb' !! k = if decide (i <= k < i + n)%nat then la !! k else lb !! k.
Proof.
  induction n as [|n IH]; intros first d_first a b i la lb h Hfa Hfi Hda Hdi Hab Ha Hb Hla Hlb.
  - exists lb. simpl. split_and!; [| done |].
    + unfold mret, M_ret. by rewrite insert_id.
    + intros k. case_decide; [lia | done].
  - destruct (lookup_lt_is_Some_2 la i) as [x Hx]; [lia |].
    simpl. erewrite bind_Ok; [| by eapply load_Ok].
    erewrite bind_Ok; [| eapply store_Ok; eauto; lia].
    destruct (IH (ptr_add first 1) (ptr_add d_first 1) a b (S i) la
                 (<[i := x]> lb) (<[b := <[i := x]> lb]> h))
      as (lb' & Hrun & Hlen & Hlk); simpl; try done; try lia.
    + by rewrite lookup_insert_ne.
    + by rewrite lookup_insert_eq.
    + rewrite length_insert. lia.
    + exists lb'. rewrite Hrun, insert_insert_eq. split_and!; [done | |].
      * by rewrite Hlen, length_insert.
      * intros k. rewrite Hlk. destruct (decide (k = i)) as [-> |].
        -- rewrite list_lookup_insert_eq by lia.
           repeat case_decide; try lia; done.
        -- rewrite list_lookup_insert_ne by done.
           repeat case_decide; try lia; done.
Qed.

(** The copy loop of [PushBack] is the same walk over two blocks. *)
Lemma PushBack_loop_spec n : forall a b (i : nat) la lb h,
  a ≠ b -> h !! a = Some la -> h !! b = Some lb ->
  (i + n <= length la)%nat -> (i + n <= length lb)%nat ->
  ∃ lb', PushBack_loop n (Some b) (Some a) (Z.of_nat i) h = Ok tt (<[b := lb']> h)
         ∧ length lb' = length lb
         ∧ ∀ k, lb' !! k = if decide (i <= k < i + n)%nat then la !! k else lb !! k.
Proof.
  induction n as [|n IH]; intros a b i la lb h Hab Ha Hb Hla Hlb.
  - exists lb. simpl. split_and!; [| done |].
    + unfold mret, M_ret. by rewrite insert_id.
    + intros k. case_decide; [lia | done].
  - destruct (lookup_lt_is_Some_2 la i) as [x Hx]; [lia |].
    simpl. erewrite bind_Ok; [| by eapply load_Ok].
    erewrite bind_Ok; [| eapply store_Ok; eauto; lia].
    replace (Z.of_nat i + 1) with (Z.of_nat (S i)) by lia.
    destruct (IH a b (S i) la (<[i := x]> lb) (<[b := <[i := x]> lb]> h))
      as (lb' & Hrun & Hlen & Hlk); try done; try lia.
    + by rewrite lookup_insert_ne.
    + by rewrite lookup_insert_eq.
    + rewrite length_insert. lia.
    + exists lb'. rewrite Hrun, insert_insert_eq. split_and!; [done | |].
      * by rewrite Hlen, length_insert.
      * intros k. rewrite Hlk. destruct (decide (k = i)) as [-> |].
        -- rewrite list_lookup_insert_eq by lia.
           repeat case_decide; try lia; done.
        -- rewrite list_lookup_insert_ne by done.
           repeat case_decide; try lia; done.
Qed.

(** Moving [n] slots, from index [i] on, between two different blocks: the
    destination receives the values, the source keeps its length. *)
Lemma std_move_n_blocks n : forall first d_first a b (i : nat) la lb h,
  block first = Some a -> index first = Z.of_nat i ->
  block d_first = Some b -> index d_first = Z.of_nat i ->
  a ≠ b -> h !! a = Some la -> h !! b = Some lb ->
  (i + n <= length la)%nat -> (i + n <= length lb)%nat ->
  ∃ la' lb', std_move_n n first d_first h = Ok tt (<[b := lb']> (<[a := la']> h))
         ∧ length la' = length la
         ∧ length lb' = length lb
         ∧ ∀ k, lb' !! k = if decide (i <= k < i + n)%nat then la !! k else lb !! k.
Proof.
  induction n as [|n IH]; intros first d_first a b i la lb h Hfa Hfi Hda Hdi Hab Ha Hb Hla Hlb.
  - exists la, lb. simpl. split_and!; [| done | done |].
    + unfold mret, M_ret. by rewrite (insert_id h a la Ha), (insert_id h b lb Hb).
    + intros k. case_decide; [lia | done].
  - destruct (lookup_lt_is_Some_2 la i) as [x Hx]; [lia |].
    simpl. erewrite bind_Ok; [| by eapply load_Ok].
    erewrite bind_Ok; [| eapply store_Ok; eauto; lia].
    erewrite bind_Ok; cycle 1.
    { eapply store_Ok; eauto; [by rewrite lookup_insert_ne | lia]. }
    destruct (IH (ptr_add first 1) (ptr_add d_first 1) a b (S i)
                 (<[i := moved_from x]> la) (<[i := x]> lb)
                 (<[a := <[i := moved_from x]> la]> (<[b := <[i := x]> lb]> h)))
      as (la' & lb' & Hrun & Hlena & Hlenb & Hlk); simpl; try done; try lia.
    + by rewrite lookup_insert_eq.
    + rewrite lookup_insert_ne by done. by rewrite lookup_insert_eq.
    + rewrite length_insert. lia.
    + rewrite length_insert. lia.
    + exists la', lb'. rewrite Hrun. split_and!.
      * f_equal. rewrite insert_insert_eq.
        rewrite (insert_insert_ne _ a b) by done.
        by rewrite insert_insert_eq.
      * by rewrite Hlena, length_insert.
      * by rewrite Hlenb, length_insert.
      * intros k. rewrite Hlk. destruct (decide (k = i)) as [-> |];
          repeat case_decide; try lia;
          rewrite ?list_lookup_insert_eq, ?list_lookup_insert_ne by lia; done.
Qed.

(** Moving [n] slots one place towards the beginning inside one block (the
    loop of [Erase]): slots [i+1 .. i+n] land on [i .. i+n-1]. *)
Lemma std_move_n_left n : forall first d_first a (i : nat) l h,
  block first = Some a -> index first = Z.of_nat (S i) ->
  block d_first = Some a -> index d_first = Z.of_nat i ->
  h !! a = Some l -> (S i + n <= length l)%nat ->
  ∃ l', std_move_n n first d_first h = Ok tt (<[a := l']> h)
        ∧ length l' = length l
        ∧ (∀ k, (k < i)%nat -> l' !! k = l !! k)
        ∧ (∀ k, (i <= k < i + n)%nat -> l' !! k = l !! S k).
Proof.
  induction n as [|n IH]; intros first d_first a i l h Hfa Hfi Hda Hdi Ha Hl.
  - exists l. simpl. split_and!; [| done | done | intros; lia].
    unfold mret, M_ret. by rewrite insert_id.
  - destruct (lookup_lt_is_Some_2 l (S i)) as [x Hx]; [lia |].
    simpl. erewrite bind_Ok; [| by eapply load_Ok].
    erewrite bind_Ok; [| eapply store_Ok; eauto; lia].
    erewrite bind_Ok; cycle 1.
    { eapply store_Ok; eauto; [by rewrite lookup_insert_eq |].
      rewrite length_insert. lia. }
    rewrite insert_insert_eq.
    destruct (IH (ptr_add first 1) (ptr_add d_first 1) a (S i)
                 (<[S i := moved_from x]> (<[i := x]> l))
                 (<[a := <[S i := moved_from x]> (<[i := x]> l)]> h))
      as (l' & Hrun & Hlen & Hlow & Hmid); simpl; try done; try lia.
    + by rewrite lookup_insert_eq.
    + rewrite !length_insert. lia.
    + exists l'. rewrite Hrun, insert_insert_eq. split_and!; [done | | |].
      * by rewrite Hlen, !length_insert.
      * intros k Hk. rewrite Hlow by lia.
        by rewrite !list_lookup_insert_ne by lia.
      * intros k Hk. destruct (decide (k = i)) as [-> |].
        -- rewrite Hlow by lia. rewrite list_lookup_insert_ne by lia.
           rewrite list_lookup_insert_eq by lia. done.
        -- rewrite Hmid by lia. by rewrite !list_lookup_insert_ne by lia.
Qed.


(** The loop of [Resize] default-initialises slots [i .. i+n-1]. *)
Lemma Resize_loop_spec n : forall a (i : nat) l h,
  h !! a = Some l -> (i + n <= length l)%nat ->
  ∃ l', Resize_loop n (Some a) (Z.of_nat i) h = Ok tt (<[a := l']> h)
        ∧ length l' = length l
        ∧ ∀ k, l' !! k = if decide (i <= k < i + n)%nat then Some Type_default else l !! k.
Proof.
  induction n as [|n IH]; intros a i l h Ha Hl.
  - exists l. simpl. split_and!; [| done |].
    + unfold mret, M_ret. by rewrite insert_id.
    + intros k. case_decide; [lia | done].
  - simpl. erewrite bind_Ok; [| eapply store_Ok; eauto; lia].
    replace (Z.of_nat i + 1) with (Z.of_nat (S i)) by lia.
    destruct (IH a (S i) (<[i := Type_default]> l) (<[a := <[i := Type_default]> l]> h))
      as (l' & Hrun & Hlen & Hlk).
    + by rewrite lookup_insert_eq.
    + rewrite length_insert. lia.
    + exists l'. rewrite Hrun, insert_insert_eq. split_and!; [done | |].
      * by rewrite Hlen, length_insert.
      * intros k. rewrite Hlk. destruct (decide (k = i)) as [-> |].
        -- rewrite list_lookup_insert_eq by lia.
           repeat case_decide; try lia; done.
        -- rewrite list_lookup_insert_ne by done.
           repeat case_decide; try lia; done.
Qed.

(** ** Allocation and release *)

Lemma ArrayPtr_new_Ok size h :
  size ≠ 0 ->
  ∃ a, h !! a = None
       ∧ ArrayPtr_new size h
         = Ok (Some a) (<[a := replicate (Z.to_nat size) Type_default]> h).
Proof.
  intros Hsz. exists (fresh (dom h)). split.
  - apply not_elem_of_dom, is_fresh.
  - unfold ArrayPtr_new. destruct (size =? 0) eqn:E; [lia | done].
Qed.

Lemma take_eq_lookup (n : nat) (l1 l2 : list Ty) :
  (∀ k, (k < n)%nat -> l1 !! k = l2 !! k) -> take n l1 = take n l2.
Proof.
  intros H. apply list_eq. intros k.
  destruct (decide (k < n)%nat).
  - rewrite !lookup_take_lt by done. by apply H.
  - rewrite !lookup_take_ge by lia. done.
Qed.

(** ** Reserve *)

(** A growing [Reserve]: a fresh block of [n] slots takes over the live
    elements, and the old block is released. *)
Lemma Reserve_grow this h buf n :
  slots this h = Some buf ->
  0 <= size_ this <= Z.of_nat (length buf) ->
  size_ this <= n -> 0 <= capacity_ this < n ->
  ∃ a buf',
    h !! a = None
    ∧ Reserve n this h
      = Ok {| data_ := Some a; size_ := size_ this; capacity_ := n |}
           (<[a := buf']> (released (data_ this) h))
    ∧ length buf' = Z.to_nat n
    ∧ take (Z.to_nat (size_ this)) buf' = take (Z.to_nat (size_ this)) buf
    ∧ (∀ k, (Z.to_nat (size_ this) <= k < Z.to_nat n)%nat -> buf' !! k = Some Type_default).
Proof.
  intros Hslots Hsize Hroom Hcap.
  destruct (ArrayPtr_new_Ok n h) as (a & Hfresh & Hnew); [lia |].
  unfold Reserve. destruct (capacity_ this <? n) eqn:E; [| lia].
  erewrite bind_Ok; [| exact Hnew].
  unfold slots in Hslots. unfold std_move, begin, end_, ptr_diff. simpl.
  replace (0 + size_ this - 0) with (size_ this) by lia.
  destruct (data_ this) as [o|] eqn:Hdata.
  - assert (o ≠ a) as Hoa by (intros ->; congruence).
    destruct (std_move_n_blocks (Z.to_nat (size_ this))
                (Get (Some o)) (Get (Some a)) o a 0 buf
                (replicate (Z.to_nat n) Type_default)
                (<[a := replicate (Z.to_nat n) Type_default]> h))
      as (la' & lb' & Hrun & Hlena & Hlenb & Hlk); try done.
    + by rewrite lookup_insert_ne.
    + by rewrite lookup_insert_eq.
    + lia.
    + rewrite length_replicate. lia.
    + exists a, lb'. erewrite bind_Ok; [| exact Hrun].
      simpl. erewrite bind_Ok; cycle 1.
      { unfold ArrayPtr_delete. rewrite lookup_insert_ne by done.
        rewrite lookup_insert_eq. reflexivity. }
      split_and!; [done | | | |].
      * unfold mret, M_ret. f_equal.
        rewrite delete_insert_ne by done.
        rewrite delete_insert_eq.
        rewrite delete_insert_ne by done.
        by rewrite insert_insert_eq.
      * by rewrite Hlenb, length_replicate.
      * apply take_eq_lookup. intros k Hk. rewrite Hlk.
        case_decide; [done | lia].
      * intros k Hk. rewrite Hlk. case_decide; [lia |].
        apply lookup_replicate_2. lia.
  - injection Hslots as <-. simpl in Hsize.
    replace (size_ this) with 0 by lia. simpl.
    exists a, (replicate (Z.to_nat n) Type_default).
    split_and!; [done | done | | done |].
    + by rewrite length_replicate.
    + intros k Hk. apply lookup_replicate_2. lia.
Qed.

Lemma Reserve_noop this h n :
  n <= capacity_ this -> Reserve n this h = Ok this h.
Proof.
  intros Hn. unfold Reserve.
  destruct (capacity_ this <? n) eqn:E; [lia | done].
Qed.



(** ** Resize *)

Lemma Resize_loop_tail a buf h (s n : Z) :
  h !! a = Some buf -> 0 <= s <= n -> n <= Z.of_nat (length buf) ->
  ∃ l', Resize_loop (Z.to_nat (n - s)) (Some a) s h = Ok tt (<[a := l']> h)
        ∧ length l' = length buf
        ∧ take (Z.to_nat n) l'
          = take (Z.to_nat s) buf ++ replicate (Z.to_nat (n - s)) Type_default.
Proof.
  intros Ha Hs Hn.
  destruct (Resize_loop_spec (Z.to_nat (n - s)) a (Z.to_nat s) buf h)
    as (l' & Hrun & Hlen & Hlk); [done | lia |].
  rewrite Z2Nat.id in Hrun by lia.
  exists l'. split_and!; [done | done |].
  apply list_eq. intros k.
  destruct (decide (k < Z.to_nat s)%nat) as [Hlo | Hhi].
  - rewrite lookup_take_lt by lia.
    rewrite lookup_app_l by (rewrite length_take; lia).
    rewrite lookup_take_lt by lia. rewrite Hlk. case_decide; [lia | done].
  - rewrite lookup_app_r by (rewrite length_take; lia).
    rewrite length_take_le by lia.
    destruct (decide (k < Z.to_nat n)%nat) as [Hin | Hout].
    + rewrite lookup_take_lt by lia. rewrite Hlk. case_decide; [| lia].
      symmetry. apply lookup_replicate_2. lia.
    + rewrite lookup_take_ge by lia.
      symmetry. apply lookup_replicate_None. lia.
Qed.

(** C4.  [Resize(new_size)] on a vector of size [s] and capacity [c]:
    truncation sets the size and leaves capacity and storage alone; growth
    raises the capacity to [max(new_size, c * 2)] when [new_size > c] and
    leaves it alone otherwise, default-initialises the slots
    [[s, new_size)] after the old elements, and sets the size. *)
Theorem Resize_correct this h new_size :
  valid this h -> doubling_fits this ->
  ∃ this' h',
    Resize new_size this h = Ok this' h'
    ∧ GetSize this' = new_size
    ∧ (new_size <= GetSize this ->
         GetCapacity this' = GetCapacity this
         ∧ data_ this' = data_ this ∧ h' = h)
    ∧ (GetSize this < new_size ->
         GetCapacity this'
         = (if decide (GetCapacity this < new_size)
            then Z.max new_size (GetCapacity this * 2)
            else GetCapacity this)
         ∧ elements this' h'
           = elements this h
             ++ replicate (Z.to_nat (new_size - GetSize this)) Type_default).
Proof.
  intros (buf & Hslots & Hsize & Hcap) Hfits.
  unfold doubling_fits, PTRDIFF_MAX in Hfits.
  unfold Resize, GetSize, GetCapacity.
  destruct (new_size <=? size_ this) eqn:Etrunc.
  - eexists _, _. split; [reflexivity |]. simpl.
    split_and!; [done | done | lia].
  - assert (size_ this < new_size) as Hlt by lia.
    rewrite (size_t_small (capacity_ this * 2)) by (unfold SIZE_MAX; lia).
    destruct (capacity_ this <? new_size) eqn:Egrow.
    + set (m := if capacity_ this * 2 <? new_size then new_size
                else capacity_ this * 2).
      assert (m = Z.max new_size (capacity_ this * 2)) as Hm.
      { unfold m. destruct (capacity_ this * 2 <? new_size) eqn:E; lia. }
      destruct (Reserve_grow this h buf m)
        as (a & buf' & Hfresh & Hrun & Hlen & Hlive & _); try done; try lia.
      erewrite bind_Ok; [| exact Hrun]. simpl.
      destruct (Resize_loop_tail a buf' (<[a := buf']> (released (data_ this) h))
                  (size_ this) new_size)
        as (l' & Hloop & Hlen' & Htake); [by rewrite lookup_insert_eq | lia | lia |].
      erewrite bind_Ok; [| exact Hloop].
      eexists _, _. split; [reflexivity |]. simpl.
      split_and!; [done | lia |]. intros _. split.
      * case_decide; [done | lia].
      * unfold elements, slots. simpl. rewrite lookup_insert_eq. simpl.
        rewrite Htake, Hlive. unfold slots in Hslots. by rewrite Hslots.
    + unfold slots in Hslots.
      destruct (data_ this) as [a|] eqn:Hdata.
      * erewrite bind_Ok; [| reflexivity]. rewrite Hdata.
        destruct (Resize_loop_tail a buf h (size_ this) new_size)
          as (l' & Hloop & Hlen' & Htake); [done | lia | lia |].
        erewrite bind_Ok; [| exact Hloop].
        eexists _, _. split; [reflexivity |]. simpl.
        split_and!; [done | lia |]. intros _. split.
        -- case_decide; [lia | done].
        -- unfold elements, slots. simpl. rewrite Hdata.
           rewrite lookup_insert_eq, Hslots. simpl. done.
      * injection Hslots as <-. simpl in *. lia.
Qed.

(** ** PushBack *)


(** The growth step shared by [PushBack(Type&&)] and [Insert]: afterwards
    there is a free slot behind the live elements. *)
Lemma make_room this h buf :
  slots this h = Some buf ->
  0 <= size_ this <= Z.of_nat (length buf) ->
  0 <= capacity_ this <= Z.of_nat (length buf) ->
  I1 this -> size_ this <= PTRDIFF_MAX ->
  ∃ a buf1 c1 h1,
    (if size_ this =? capacity_ this then
       Reserve (if capacity_ this =? 0 then 1 else size_t (capacity_ this * 2)) this
     else mret this) h
    = Ok {| data_ := Some a; size_ := size_ this; capacity_ := c1 |} h1
    ∧ h1 !! a = Some buf1
    ∧ size_ this < c1 <= Z.of_nat (length buf1)
    ∧ c1 = (if decide (size_ this = capacity_ this)
            then (if decide (capacity_ this = 0) then 1 else capacity_ this * 2)
            else capacity_ this)
    ∧ take (Z.to_nat (size_ this)) buf1 = take (Z.to_nat (size_ this)) buf.
Proof.
  intros Hslots Hsize Hcap HI1 Hfit. unfold I1 in HI1.
  destruct (size_ this =? capacity_ this) eqn:Efull.
  - set (n := if capacity_ this =? 0 then 1 else size_t (capacity_ this * 2)).
    assert (n = if decide (capacity_ this = 0) then 1 else capacity_ this * 2) as Hn.
    { unfold n. unfold PTRDIFF_MAX in Hfit.
      destruct (capacity_ this =? 0) eqn:E0; case_decide; try lia.
      apply size_t_small. unfold SIZE_MAX. lia. }
    assert (capacity_ this < n) as Hgrow by (rewrite Hn; case_decide; lia).
    destruct (Reserve_grow this h buf n)
      as (a & buf' & Hfresh & Hrun & Hlen & Hlive & _); try done; try lia.
    exists a, buf', n, (<[a := buf']> (released (data_ this) h)).
    split_and!; [done | by rewrite lookup_insert_eq | lia | lia | | done].
    rewrite decide_True by lia. done.
  - unfold slots in Hslots.
    destruct (data_ this) as [a|] eqn:Hdata; cycle 1.
    { injection Hslots as <-. simpl in *. lia. }
    exists a, buf, (capacity_ this), h.
    split_and!; [| done | lia | lia | | done].
    + unfold mret, M_ret. f_equal. destruct this; simpl in *. by subst.
    + rewrite decide_False by lia. done.
Qed.

(** The last two statements of both overloads, on a buffer with a free slot
    after the live elements. *)
Lemma push_tail item this h buf :
  slots this h = Some buf ->
  0 <= size_ this < Z.of_nat (length buf) ->
  size_ this < capacity_ this <= Z.of_nat (length buf) ->
  size_ this <= PTRDIFF_MAX ->
  ∃ h',
    (store (ArrayPtr_index (data_ this) (size_ this)) item;;
     mret {| data_ := data_ this;
             size_ := size_t (size_ this + 1);
             capacity_ := capacity_ this |}) h
    = Ok {| data_ := data_ this;
            size_ := size_ this + 1;
            capacity_ := capacity_ this |} h'
    ∧ valid {| data_ := data_ this;
               size_ := size_ this + 1;
               capacity_ := capacity_ this |} h'
    ∧ elements {| data_ := data_ this;
                  size_ := size_ this + 1;
                  capacity_ := capacity_ this |} h'
      = take (Z.to_nat (size_ this)) buf ++ [item].
Proof.
  intros Hslots Hsize Hcap Hfit. unfold PTRDIFF_MAX in Hfit.
  unfold slots in Hslots.
  destruct (data_ this) as [a|] eqn:Hdata; cycle 1.
  { injection Hslots as <-. simpl in Hsize. lia. }
  exists (<[a := <[Z.to_nat (size_ this) := item]> buf]> h).
  erewrite bind_Ok; cycle 1.
  { eapply (store_Ok _ a (Z.to_nat (size_ this))); eauto; simpl; lia. }
  rewrite size_t_small by (unfold SIZE_MAX; lia).
  split_and!; [done | |].
  - exists (<[Z.to_nat (size_ this) := item]> buf).
    unfold slots. simpl. rewrite lookup_insert_eq, length_insert.
    split_and!; [done | lia | lia | lia | lia].
  - unfold elements, slots. simpl. rewrite lookup_insert_eq. simpl.
    replace (Z.to_nat (size_ this + 1)) with (S (Z.to_nat (size_ this))) by lia.
    apply list_eq. intros k.
    destruct (decide (k < Z.to_nat (size_ this))%nat) as [Hlo | Hhi].
    + rewrite lookup_take_lt by lia.
      rewrite list_lookup_insert_ne by lia.
      rewrite lookup_app_l by (rewrite length_take; lia).
      by rewrite lookup_take_lt by lia.
    + rewrite lookup_app_r by (rewrite length_take; lia).
      rewrite length_take_le by lia.
      destruct (decide (k = Z.to_nat (size_ this))) as [-> | Hne].
      * rewrite lookup_take_lt by lia.
        rewrite list_lookup_insert_eq by lia.
        by rewrite Nat.sub_diag.
      * rewrite lookup_take_ge by lia.
        symmetry. apply lookup_ge_None. simpl. lia.
Qed.


Lemma PushBack_move_spec item this h :
  valid this h -> I1 this -> size_ this <= PTRDIFF_MAX ->
  ∃ this' h', PushBack_move item this h = Ok this' h' ∧ pushed item this h this' h'.
Proof.
  intros (buf & Hslots & Hsize & Hcap) HI1 Hfit.
  destruct (make_room this h buf)
    as (a & buf1 & c1 & h1 & Hroom & Ha & Hc1 & Hcap1 & Hlive); try done.
  unfold PushBack_move, pushed.
  erewrite bind_Ok; [| exact Hroom].
  destruct (push_tail item
              {| data_ := Some a; size_ := size_ this; capacity_ := c1 |} h1 buf1)
    as (h' & Htail & Hvalid & Helems); simpl; try done; try lia.
  simpl in Htail, Hvalid, Helems. rewrite Htail.
  eexists _, _. split; [reflexivity |]. simpl.
  split_and!; [done | unfold I1; simpl; lia | done | done |].
  rewrite Helems, Hlive. unfold elements. by rewrite Hslots.
Qed.





(** ** Erase and Insert *)

Lemma position_inv (p q : Iterator) :
  ptr_le p q = true -> block p = block q ∧ index p <= index q.
Proof.
  unfold ptr_le. intros H. apply andb_true_iff in H as [Hb Hi].
  apply bool_decide_eq_true in Hb. split; [done | lia].
Qed.

Lemma position_lt_inv (p q : Iterator) :
  ptr_lt p q = true -> block p = block q ∧ index p < index q.
Proof.
  unfold ptr_lt. intros H. apply andb_true_iff in H as [Hb Hi].
  apply bool_decide_eq_true in Hb. split; [done | lia].
Qed.

(** [Erase] at a live position: the block stays where it is and keeps its
    length; the slots before the position are untouched and the live slots
    after it move one place down. *)
Lemma Erase_run pos this h buf :
  slots this h = Some buf ->
  0 <= size_ this <= Z.of_nat (length buf) ->
  ptr_le (begin this) pos = true -> ptr_lt pos (end_ this) = true ->
  ∃ a l',
    data_ this = Some a
    ∧ h !! a = Some buf
    ∧ Erase pos this h
      = Ok (pos, {| data_ := data_ this;
                    size_ := size_t (size_ this - 1);
                    capacity_ := capacity_ this |})
           (<[a := l']> h)
    ∧ length l' = length buf
    ∧ (∀ k, (k < Z.to_nat (index pos))%nat -> l' !! k = buf !! k)
    ∧ (∀ k, (Z.to_nat (index pos) <= k < Z.to_nat (size_ this) - 1)%nat ->
            l' !! k = buf !! S k).
Proof.
  intros Hslots Hsize Hlo Hhi.
  apply position_inv in Hlo as [Hblock Hlo].
  apply position_lt_inv in Hhi as [_ Hhi].
  unfold begin, end_, Get, ptr_add in *. simpl in *.
  unfold slots in Hslots.
  destruct (data_ this) as [a|] eqn:Hdata; cycle 1.
  { injection Hslots as <-. simpl in Hsize. lia. }
  destruct (std_move_n_left
              (Z.to_nat (size_ this - index pos - 1))
              {| block := Some a; index := 0 + (index pos - 0 + 1) |}
              {| block := Some a; index := 0 + (index pos - 0) |}
              a (Z.to_nat (index pos)) buf h)
    as (l' & Hrun & Hlen & Hlow & Hmid); simpl; try done; try lia.
  exists a, l'. split_and!; [done | done | | done | done |].
  - unfold Erase.
    unfold begin, end_, Get, ptr_add, ptr_le, ptr_lt, ptr_diff. simpl.
    rewrite Hdata, <- Hblock. rewrite bool_decide_eq_true_2 by done. simpl.
    destruct (0 <=? index pos) eqn:E1; [| lia].
    destruct (index pos <? 0 + size_ this) eqn:E2; [| lia]. simpl.
    erewrite bind_Ok; [| reflexivity].
    unfold std_move, ptr_diff. simpl.
    replace (0 + size_ this - (0 + (index pos - 0 + 1)))
      with (size_ this - index pos - 1) by lia.
    erewrite bind_Ok; [| exact Hrun].
    unfold mret, M_ret. f_equal. f_equal.
    destruct pos as [pb pi]. simpl in *. subst pb. f_equal. lia.
  - intros k Hk. apply Hmid. lia.
Qed.



(** X14.  [Erase] at a live position: the element at the position leaves,
    the others keep their order; the size drops by one, the capacity stays,
    and the returned position is the erased one, where the next element now
    is. *)
Lemma Erase_elements pos this h :
  valid this h -> size_ this <= SIZE_MAX ->
  ptr_le (begin this) pos = true -> ptr_lt pos (end_ this) = true ->
  ∃ this' h',
    Erase pos this h = Ok (pos, this') h'
    ∧ valid this' h'
    ∧ size_ this' = size_ this - 1
    ∧ capacity_ this' = capacity_ this
    ∧ elements this' h'
      = take (Z.to_nat (index pos)) (elements this h)
        ++ drop (S (Z.to_nat (index pos))) (elements this h).
Proof.
  intros (buf & Hslots & Hsize & Hcap) Hfit Hlo Hhi.
  destruct (Erase_run pos this h buf)
    as (a & l' & Hdata & Ha & Hrun & Hlen & Hlow & Hdown); try done.
  apply position_inv in Hlo as [_ Hlo].
  apply position_lt_inv in Hhi as [_ Hhi].
  unfold begin, end_, Get, ptr_add in Hlo, Hhi. simpl in *.
  rewrite size_t_small in Hrun by lia.
  eexists _, _. split; [exact Hrun |]. simpl.
  split_and!; [| done | done |].
  - exists l'. unfold slots. simpl. rewrite Hdata, lookup_insert_eq.
    split_and!; [done | lia | lia | lia | lia].
  - unfold elements at 1. unfold slots at 1. simpl.
    rewrite Hdata, lookup_insert_eq. simpl.
    unfold elements. rewrite Hslots. simpl.
    set (s := Z.to_nat (size_ this)) in *.
    set (off := Z.to_nat (index pos)) in *.
    replace (Z.to_nat (size_ this - 1)) with (s - 1)%nat by lia.
    assert (length (take off (take s buf)) = off) as Hlen'
      by (rewrite !length_take; lia).
    apply list_eq. intros k.
    destruct (decide (k < off)%nat) as [Hbefore | Hnot].
    + rewrite lookup_take_lt by lia. rewrite Hlow by done.
      rewrite lookup_app_l by lia. by rewrite !lookup_take_lt by lia.
    + rewrite lookup_app_r by lia. rewrite Hlen', lookup_drop.
      replace (S off + (k - off))%nat with (S k) by lia.
      destruct (decide (k < s - 1)%nat) as [Hin | Hout].
      * rewrite lookup_take_lt by lia. rewrite Hdown by lia.
        by rewrite lookup_take_lt by lia.
      * rewrite !lookup_take_ge by lia. done.
Qed.


(** ** Checked access *)

(** C6.  [At(index)] on a vector of size [N]: for [index >= N] it throws
    [std::out_of_range] and leaves the heap as it was; for [index < N] it
    returns the reference to slot [index], which holds the live element of
    that index; it returns normally only for a live index. *)
Theorem At_checked index this h :
  valid this h -> 0 <= index ->
  (GetSize this <= index ->
     At index this h = Throw (out_of_range "Index out of range") h)
  ∧ (index < GetSize this ->
     ∃ x, At index this h = Ok (ArrayPtr_index (data_ this) index) h
          ∧ load (ArrayPtr_index (data_ this) index) h = Ok x h
          ∧ elements this h !! Z.to_nat index = Some x)
  ∧ (forall r h', At index this h = Ok r h' -> index < GetSize this).
Proof.
  intros (buf & Hslots & Hsize & Hcap) Hindex.
  unfold At, GetSize. split_and!.
  - intros Hout. destruct (size_ this <=? index) eqn:E; [done | lia].
  - intros Hin. destruct (size_ this <=? index) eqn:E; [lia |].
    unfold slots in Hslots.
    destruct (data_ this) as [a|] eqn:Hdata; cycle 1.
    { injection Hslots as <-. simpl in Hsize. lia. }
    destruct (lookup_lt_is_Some_2 buf (Z.to_nat index)) as [x Hx]; [lia |].
    exists x. split_and!; [done | |].
    + eapply (load_Ok _ a (Z.to_nat index)); eauto. simpl. lia.
    + unfold elements, slots. rewrite Hdata, Hslots. simpl.
      rewrite lookup_take_lt by lia. done.
  - intros r h'. destruct (size_ this <=? index) eqn:E; [done | lia].
Qed.

(** ** Move construction *)

(** C8.  Move construction: the source is left with size 0, capacity 0 and
    no buffer; the new object has the size, the capacity and the buffer, and
    so the elements, the source had. *)
Theorem move_constructor_correct (A : SimpleVector) :
  let '(B, A') := SimpleVector_move A in
  GetSize A' = 0 ∧ GetCapacity A' = 0 ∧ data_ A' = nullptr
  ∧ GetSize B = GetSize A ∧ GetCapacity B = GetCapacity A
  ∧ data_ B = data_ A
  ∧ forall h, elements B h = elements A h.
Proof. unfold SimpleVector_move. simpl. split_and!; done. Qed.

(** ** Shrinking *)

(** C9.  [Clear], [PopBack] on a non-empty vector, [Erase] of a live position
    and [Resize] to a size that is not larger: [GetCapacity()] is unchanged,
    the vector keeps its buffer, and no block of the heap is released. *)
Theorem shrinking_keeps_capacity this h :
  valid this h ->
  (GetCapacity (Clear this) = GetCapacity this
   ∧ data_ (Clear this) = data_ this)
  ∧ (0 < GetSize this ->
     ∃ this', PopBack this h = Ok this' h
              ∧ GetCapacity this' = GetCapacity this
              ∧ data_ this' = data_ this)
  ∧ (forall pos,
       ptr_le (begin this) pos = true -> ptr_lt pos (end_ this) = true ->
       ∃ q this' h',
         Erase pos this h = Ok (q, this') h'
         ∧ GetCapacity this' = GetCapacity this
         ∧ data_ this' = data_ this
         ∧ dom h' = dom h
         ∧ length <$> slots this' h' = length <$> slots this h)
  ∧ (forall new_size, new_size <= GetSize this ->
       ∃ this', Resize new_size this h = Ok this' h
                ∧ GetCapacity this' = GetCapacity this
                ∧ data_ this' = data_ this).
Proof.
  intros (buf & Hslots & Hsize & Hcap). unfold GetCapacity, GetSize.
  split_and!.
  - done.
  - done.
  - intros Hpos. unfold PopBack.
    destruct (0 <? size_ this) eqn:E; [| lia].
    eexists. split; [reflexivity | done].
  - intros pos Hlo Hhi.
    destruct (Erase_run pos this h buf)
      as (a & l' & Hdata & Ha & Hrun & Hlen & _); try done.
    eexists _, _, _. split; [exact Hrun |]. simpl.
    split_and!; [done | done | |].
    + rewrite dom_insert_L. apply subseteq_union_1_L.
      apply singleton_subseteq_l, elem_of_dom. eauto.
    + unfold slots. simpl. rewrite Hdata, lookup_insert_eq, Ha. simpl.
      by rewrite Hlen.
  - intros new_size Hle. unfold Resize.
    destruct (new_size <=? size_ this) eqn:E; [| lia].
    eexists. split; [reflexivity | done].
Qed.

(** ** Self-assignment *)

(** C10.  Assigning an object to itself, by copy or by move, returns at the
    address comparison: no object and no block changes. *)
Theorem self_assignment_noop (this : positive) (objs : objects) h :
  assign_copy this this objs h = Ok objs h
  ∧ assign_move this this objs h = Ok objs h.
Proof.
  unfold assign_copy, assign_move.
  rewrite bool_decide_eq_false_2 by (intros Hne; by apply Hne).
  done.
Qed.

(** ** The other constructors establish I1 *)

Lemma std_fill_n_spec n : forall first a (i : nat) l h x,
  block first = Some a -> index first = Z.of_nat i ->
  h !! a = Some l -> (i + n <= length l)%nat ->
  ∃ l', std_fill_n n first x h = Ok tt (<[a := l']> h)
        ∧ length l' = length l
        ∧ ∀ k, l' !! k = if decide (i <= k < i + n)%nat then Some x else l !! k.
Proof.
  induction n as [|n IH]; intros first a i l h x Hb Hi Ha Hl.
  - exists l. simpl. split_and!; [| done |].
    + unfold mret, M_ret. by rewrite insert_id.
    + intros k. case_decide; [lia | done].
  - simpl. erewrite bind_Ok; [| eapply store_Ok; eauto; lia].
    destruct (IH (ptr_add first 1) a (S i) (<[i := x]> l) (<[a := <[i := x]> l]> h) x)
      as (l' & Hrun & Hlen & Hlk); simpl; try done; try lia.
    + by rewrite lookup_insert_eq.
    + rewrite length_insert. lia.
    + exists l'. rewrite Hrun, insert_insert_eq. split_and!; [done | |].
      * by rewrite Hlen, length_insert.
      * intros k. rewrite Hlk. destruct (decide (k = i)) as [-> |];
          repeat case_decide; try lia;
          rewrite ?list_lookup_insert_eq, ?list_lookup_insert_ne by lia; done.
Qed.

Lemma std_copy_list_spec xs : forall d_first a (i : nat) l h,
  block d_first = Some a -> index d_first = Z.of_nat i ->
  h !! a = Some l -> (i + length xs <= length l)%nat ->
  ∃ l', std_copy_list xs d_first h = Ok tt (<[a := l']> h)
        ∧ length l' = length l
        ∧ ∀ k, l' !! k = if decide (i <= k < i + length xs)%nat
                         then xs !! (k - i)%nat else l !! k.
Proof.
  induction xs as [|x xs IH]; intros d_first a i l h Hb Hi Ha Hl.
  - exists l. simpl. split_and!; [| done |].
    + unfold mret, M_ret. by rewrite insert_id.
    + intros k. case_decide; [lia | done].
  - simpl in Hl. simpl std_copy_list.
    erewrite bind_Ok; [| eapply store_Ok; eauto; lia].
    destruct (IH (ptr_add d_first 1) a (S i) (<[i := x]> l) (<[a := <[i := x]> l]> h))
      as (l' & Hrun & Hlen & Hlk); simpl; try done; try lia.
    + by rewrite lookup_insert_eq.
    + rewrite length_insert. lia.
    + exists l'. rewrite Hrun, insert_insert_eq. split_and!; [done | |].
      * by rewrite Hlen, length_insert.
      * intros k. rewrite Hlk. destruct (decide (k = i)) as [-> |].
        -- rewrite list_lookup_insert_eq by lia.
           repeat case_decide; try lia. by rewrite Nat.sub_diag.
        -- rewrite list_lookup_insert_ne by lia.
           repeat case_decide; try lia; [| done].
           replace (k - i)%nat with (S (k - S i)) by lia. done.
Qed.

Lemma SimpleVector_fill_spec size value h :
  0 <= size ->
  ∃ this h',
    SimpleVector_fill size value h = Ok this h'
    ∧ valid this h' ∧ I1 this
    ∧ GetSize this = size ∧ GetCapacity this = size
    ∧ elements this h' = replicate (Z.to_nat size) value.
Proof.
  intros Hsize. unfold SimpleVector_fill, I1, GetSize, GetCapacity.
  destruct (decide (size = 0)) as [-> | Hpos].
  - exists {| data_ := nullptr; size_ := 0; capacity_ := 0 |}, h.
    split; [reflexivity |]. simpl.
    split_and!; [| lia | done | done | done].
    exists []. simpl. split_and!; [done | lia | lia | lia | lia].
  - destruct (ArrayPtr_new_Ok size h) as (a & Hfresh & Hnew); [done |].
    erewrite bind_Ok; [| exact Hnew].
    unfold std_fill, Get, ptr_add, ptr_diff. simpl.
    replace (0 + size - 0) with size by lia.
    destruct (std_fill_n_spec (Z.to_nat size) {| block := Some a; index := 0 |}
                a 0 (replicate (Z.to_nat size) Type_default)
                (<[a := replicate (Z.to_nat size) Type_default]> h) value)
      as (l' & Hrun & Hlen & Hlk); try done.
    + by rewrite lookup_insert_eq.
    + rewrite length_replicate. lia.
    + erewrite bind_Ok; [| exact Hrun].
      eexists _, _. split; [reflexivity |]. simpl.
      rewrite length_replicate in Hlen.
      split_and!; [| lia | done | done |].
      * exists l'. unfold slots. simpl. rewrite lookup_insert_eq.
        split_and!; [done | lia | lia | lia | lia].
      * unfold elements, slots. simpl. rewrite lookup_insert_eq. simpl.
        apply list_eq. intros k.
        destruct (decide (k < Z.to_nat size)%nat) as [Hin | Hout].
        -- rewrite lookup_take_lt by lia. rewrite Hlk.
           case_decide; [| lia]. symmetry. by apply lookup_replicate_2.
        -- rewrite lookup_take_ge by lia. symmetry.
           apply lookup_replicate_None. lia.
Qed.

Lemma SimpleVector_size_spec size h :
  0 <= size ->
  ∃ this h',
    SimpleVector_size size h = Ok this h'
    ∧ valid this h' ∧ I1 this
    ∧ GetSize this = size ∧ GetCapacity this = size
    ∧ elements this h' = replicate (Z.to_nat size) Type_default.
Proof. apply SimpleVector_fill_spec. Qed.

Lemma SimpleVector_init_list_spec init_list h :
  ∃ this h',
    SimpleVector_init_list init_list h = Ok this h'
    ∧ valid this h' ∧ I1 this
    ∧ GetSize this = Z.of_nat (length init_list)
    ∧ GetCapacity this = Z.of_nat (length init_list)
    ∧ elements this h' = init_list.
Proof.
  unfold SimpleVector_init_list, I1, GetSize, GetCapacity.
  destruct init_list as [|x xs] eqn:Hlist.
  - exists {| data_ := nullptr; size_ := 0; capacity_ := 0 |}, h.
    split; [reflexivity |]. simpl.
    split_and!; [| lia | done | done | done].
    exists []. simpl. split_and!; [done | lia | lia | lia | lia].
  - rewrite <- Hlist. set (n := Z.of_nat (length init_list)).
    assert (0 < n) as Hn by (unfold n; rewrite Hlist; simpl; lia).
    destruct (ArrayPtr_new_Ok n h) as (a & Hfresh & Hnew); [lia |].
    erewrite bind_Ok; [| exact Hnew].
    destruct (std_copy_list_spec init_list (Get (Some a)) a 0
                (replicate (Z.to_nat n) Type_default)
                (<[a := replicate (Z.to_nat n) Type_default]> h))
      as (l' & Hrun & Hlen & Hlk); try done.
    + by rewrite lookup_insert_eq.
    + rewrite length_replicate. lia.
    + erewrite bind_Ok; [| exact Hrun].
      eexists _, _. split; [reflexivity |]. simpl.
      rewrite length_replicate in Hlen.
      split_and!; [| lia | done | done |].
      * exists l'. unfold slots. simpl. rewrite lookup_insert_eq.
        split_and!; [done | lia | lia | lia | lia].
      * unfold elements, slots. simpl. rewrite lookup_insert_eq. simpl.
        apply list_eq. intros k.
        destruct (decide (k < Z.to_nat n)%nat) as [Hin | Hout].
        -- rewrite lookup_take_lt by lia. rewrite Hlk.
           case_decide; [| lia]. by rewrite Nat.sub_0_r.
        -- rewrite lookup_take_ge by lia. symmetry.
           apply lookup_ge_None. lia.
Qed.

Lemma SimpleVector_reserve_spec reserve_size h :
  0 <= reserve_size ->
  ∃ this h',
    SimpleVector_reserve reserve_size h = Ok this h'
    ∧ valid this h' ∧ I1 this
    ∧ GetSize this = 0 ∧ GetCapacity this = reserve_size.
Proof.
  intros Hsize. unfold SimpleVector_reserve, I1, GetSize, GetCapacity.
  destruct (decide (reserve_size = 0)) as [-> | Hpos].
  - exists SimpleVector_default, h. rewrite Reserve_noop by (simpl; lia).
    split; [done |]. simpl. split_and!; [| lia | done | done].
    exists []. simpl. split_and!; [done | lia | lia | lia | lia].
  - destruct (Reserve_grow SimpleVector_default h [] reserve_size)
      as (a & buf' & _ & Hrun & Hlen & _); simpl; try done; try lia.
    simpl in Hrun. eexists _, _. split; [exact Hrun |]. simpl.
    split_and!; [| lia | done | done].
    exists buf'. unfold slots. simpl. rewrite lookup_insert_eq.
    split_and!; [done | lia | lia | lia | lia].
Qed.

Lemma SimpleVector_move_I1 other :
  I1 other -> I1 (SimpleVector_move other).1 ∧ I1 (SimpleVector_move other).2.
Proof. unfold I1, SimpleVector_move. simpl. lia. Qed.

(** ** Copy construction *)

(** Copy construction of a vector with [size <= capacity], in full: the new
    block, the copied elements, and the data member [capacity_] that stays
    0. *)
Lemma SimpleVector_copy_run A h :
  valid A h -> I1 A ->
  ∃ B h' buf,
    SimpleVector_copy A h = Ok B h'
    ∧ size_ B = size_ A
    ∧ capacity_ B = 0
    ∧ elements B h' = elements A h
    ∧ slots B h' = Some buf
    ∧ Z.of_nat (length buf) = capacity_ A
    ∧ (forall b, data_ B = Some b -> h !! b = None)
    ∧ (forall a l, h !! a = Some l -> h' !! a = Some l).
Proof.
  intros (bufA & Hslots & Hsize & Hcap) HI1. unfold I1 in HI1.
  unfold SimpleVector_copy.
  destruct (decide (capacity_ A = 0)) as [Hzero | Hpos].
  - exists {| data_ := nullptr; size_ := size_ A; capacity_ := 0 |}, h, [].
    unfold ArrayPtr_new. rewrite Hzero. simpl.
    erewrite bind_Ok; [| reflexivity].
    unfold std_copy, begin, end_, Get, ptr_add, ptr_diff. simpl.
    assert (size_ A = 0) as Hempty by lia.
    rewrite Hempty. simpl.
    split_and!; [done | done | done | | done | done | done | done].
    unfold elements. simpl. by rewrite Hempty.
  - destruct (ArrayPtr_new_Ok (capacity_ A) h) as (b & Hfresh & Hnew); [done |].
    erewrite bind_Ok; [| exact Hnew].
    unfold std_copy, begin, end_, Get, ptr_add, ptr_diff. simpl.
    replace (0 + size_ A - 0) with (size_ A) by lia.
    unfold slots in Hslots.
    destruct (data_ A) as [a|] eqn:Hdata.
    + assert (a ≠ b) as Hab by (intros ->; congruence).
      destruct (std_copy_n_spec (Z.to_nat (size_ A))
                  {| block := Some a; index := 0 |}
                  {| block := Some b; index := 0 |}
                  a b 0 bufA
                  (replicate (Z.to_nat (capacity_ A)) Type_default)
                  (<[b := replicate (Z.to_nat (capacity_ A)) Type_default]> h))
        as (lb' & Hrun & Hlen & Hlk); try done.
      * by rewrite lookup_insert_ne.
      * by rewrite lookup_insert_eq.
      * lia.
      * rewrite length_replicate. lia.
      * erewrite bind_Ok; [| exact Hrun].
        eexists _, _, lb'. split; [reflexivity |]. simpl.
        split_and!.
        -- done.
        -- done.
        -- unfold elements, slots. simpl.
           rewrite lookup_insert_eq, Hdata, Hslots. simpl.
           apply take_eq_lookup. intros k Hk. rewrite Hlk.
           case_decide; [done | lia].
        -- unfold slots. simpl. by rewrite lookup_insert_eq.
        -- rewrite Hlen, length_replicate. lia.
        -- intros b' [= <-]. done.
        -- intros a' l Ha'. rewrite insert_insert_eq.
           rewrite lookup_insert_ne; [done | intros ->; congruence].
    + injection Hslots as <-. simpl in Hsize.
      assert (size_ A = 0) as Hempty by lia.
      rewrite Hempty. simpl.
      eexists _, _, _. split; [reflexivity |]. simpl.
      split_and!.
      * done.
      * done.
      * unfold elements. simpl. by rewrite Hempty.
      * unfold slots. simpl. by rewrite lookup_insert_eq.
      * rewrite length_replicate. lia.
      * intros b' [= <-]. done.
      * intros a' l Ha'.
        rewrite lookup_insert_ne; [done | intros ->; congruence].
Qed.

(** C1, as the code has it.  Copying a vector with [size <= capacity]: the
    copy has a block of its own, new to the heap, and every block that was
    there, the source's included, is left as it was; the copy has the size
    and the live elements of the source, in order; its block has as many
    slots as the source has capacity. *)
Theorem copy_constructor_correct A h :
  valid A h -> I1 A ->
  ∃ B h' buf,
    SimpleVector_copy A h = Ok B h'
    ∧ GetSize B = GetSize A
    ∧ elements B h' = elements A h
    ∧ slots B h' = Some buf
    ∧ Z.of_nat (length buf) = GetCapacity A
    ∧ (forall b, data_ B = Some b -> h !! b = None)
    ∧ (forall a l, h !! a = Some l -> h' !! a = Some l).
Proof.
  intros Hvalid HI1.
  destruct (SimpleVector_copy_run A h Hvalid HI1)
    as (B & h' & buf & Hrun & Hsize & _ & Helems & Hslots & Hlen & Hnew & Hold).
  exists B, h', buf. unfold GetSize, GetCapacity.
  split_and!; done.
Qed.

(** C2.  Invariant I1 does not survive copy construction: the copy of any
    non-empty vector with [size <= capacity] has the size of its source but
    [GetCapacity()] 0, so its size exceeds its capacity. *)
Theorem copy_constructor_breaks_I1 A h :
  valid A h -> I1 A -> 0 < GetSize A ->
  ∃ B h',
    SimpleVector_copy A h = Ok B h'
    ∧ GetSize B = GetSize A
    ∧ GetCapacity B = 0
    ∧ ¬ GetSize B <= GetCapacity B.
Proof.
  intros Hvalid HI1 Hnonempty.
  destruct (SimpleVector_copy_run A h Hvalid HI1)
    as (B & h' & buf & Hrun & Hsize & Hcap & _).
  exists B, h'. unfold GetSize, GetCapacity in *.
  split_and!; [done | done | done | lia].
Qed.

(** * Further properties of the class *)

(** ** Constructors *)

(** X1.  The constructor from an initializer list returns a vector whose size
    and capacity are the length of the list, with size <= capacity, and whose
    live elements are the list, in order. *)
Theorem list_constructor_correct init_list h :
  ∃ this h',
    SimpleVector_init_list init_list h = Ok this h'
    ∧ GetSize this = Z.of_nat (length init_list)
    ∧ GetCapacity this = Z.of_nat (length init_list)
    ∧ GetSize this <= GetCapacity this
    ∧ elements this h' = init_list
    ∧ (forall i x, init_list !! i = Some x ->
         load (ArrayPtr_index (data_ this) (Z.of_nat i)) h' = Ok x h').
Proof.
  destruct (SimpleVector_init_list_spec init_list h)
    as (this & h' & Hrun & (buf & Hslots & Hsize & Hcap) & HI1 & Hs & Hc & Helems).
  exists this, h'. unfold I1, GetSize, GetCapacity in *.
  split_and!; [done | done | done | lia | done |].
  intros i x Hi.
  assert (i < length init_list)%nat as Hlt by (by eapply lookup_lt_Some).
  unfold elements in Helems. rewrite Hslots in Helems. simpl in Helems.
  unfold slots in Hslots.
  destruct (data_ this) as [a|] eqn:Hdata; cycle 1.
  { injection Hslots as <-. simpl in Hsize. lia. }
  eapply (load_Ok _ a i); eauto.
  rewrite <- Helems in Hi. rewrite lookup_take_lt in Hi by lia. done.
Qed.

(** X2.  The two sized constructors, for a size that is not negative:
    [SimpleVector(size)] holds [size] default values and
    [SimpleVector(size, value)] holds [size] copies of [value]; in both, size
    and capacity are [size]. *)
Theorem sized_constructors_correct size value h :
  0 <= size ->
  (∃ this h',
     SimpleVector_size size h = Ok this h'
     ∧ GetSize this = size ∧ GetCapacity this = size
     ∧ elements this h' = replicate (Z.to_nat size) Type_default)
  ∧ (∃ this h',
       SimpleVector_fill size value h = Ok this h'
       ∧ GetSize this = size ∧ GetCapacity this = size
       ∧ elements this h' = replicate (Z.to_nat size) value).
Proof.
  intros Hsize. split.
  - destruct (SimpleVector_size_spec size h Hsize)
      as (this & h' & Hrun & _ & _ & Hs & Hc & Helems).
    by exists this, h'.
  - destruct (SimpleVector_fill_spec size value h Hsize)
      as (this & h' & Hrun & _ & _ & Hs & Hc & Helems).
    by exists this, h'.
Qed.

(** X3.  [SimpleVector(Reserve(n))], for [n] that is not negative: the vector
    is empty, its capacity is [n], and its buffer has [n] slots. *)
Theorem reserving_constructor_correct n h :
  0 <= n ->
  ∃ this h' buf,
    SimpleVector_proxy (Reserve_proxy n) h = Ok this h'
    ∧ GetSize this = 0
    ∧ GetCapacity this = n
    ∧ elements this h' = []
    ∧ slots this h' = Some buf
    ∧ Z.of_nat (length buf) = n.
Proof.
  intros Hn. unfold SimpleVector_proxy, Reserve_proxy, GetReserveSize. simpl.
  unfold GetSize, GetCapacity.
  destruct (decide (n = 0)) as [-> | Hpos].
  - exists SimpleVector_default, h, []. rewrite Reserve_noop by (simpl; lia).
    split_and!; done.
  - destruct (Reserve_grow SimpleVector_default h [] n)
      as (a & buf' & _ & Hrun & Hlen & _); simpl; try done; try lia.
    simpl in Hrun. eexists _, _, buf'. split; [exact Hrun |]. simpl.
    unfold elements, slots. simpl. rewrite lookup_insert_eq.
    split_and!; [done | done | done | done | lia].
Qed.

(** ** Element access and observers *)

(** A live index names a slot of the buffer that holds the element of that
    index. *)
Lemma slot_live index this h :
  valid this h -> 0 <= index < size_ this ->
  ∃ x, load (ArrayPtr_index (data_ this) index) h = Ok x h
       ∧ elements this h !! Z.to_nat index = Some x.
Proof.
  intros (buf & Hslots & Hsize & Hcap) Hindex.
  unfold slots in Hslots.
  destruct (data_ this) as [a|] eqn:Hdata; cycle 1.
  { injection Hslots as <-. simpl in Hsize. lia. }
  destruct (lookup_lt_is_Some_2 buf (Z.to_nat index)) as [x Hx]; [lia |].
  exists x. split.
  - eapply (load_Ok _ a (Z.to_nat index)); eauto. simpl. lia.
  - unfold elements, slots. rewrite Hdata, Hslots. simpl.
    rewrite lookup_take_lt by lia. done.
Qed.

(** X4.  [operator[]]: for an index below the size it returns the reference
    to the slot that holds the live element of that index; for any other
    index its assertion fails. *)
Theorem subscript_correct index this h :
  valid this h -> 0 <= index ->
  (index < GetSize this ->
     ∃ x, subscript index this h = Ok (ArrayPtr_index (data_ this) index) h
          ∧ load (ArrayPtr_index (data_ this) index) h = Ok x h
          ∧ elements this h !! Z.to_nat index = Some x)
  ∧ (GetSize this <= index -> subscript index this h = Undefined).
Proof.
  intros Hvalid Hindex. unfold subscript, GetSize. split.
  - intros Hin. destruct (slot_live index this h) as (x & Hload & Hx);
      [done | lia |].
    exists x. destruct (index <? size_ this) eqn:E; [| lia].
    split_and!; done.
  - intros Hout. destruct (index <? size_ this) eqn:E; [lia | done].
Qed.

(** X5.  The observers agree with the live elements: [GetSize()] is their
    number and [IsEmpty()] holds exactly when there are none. *)
Theorem observers_agree this h :
  valid this h ->
  GetSize this = Z.of_nat (length (elements this h))
  ∧ (IsEmpty this = true <-> elements this h = []).
Proof.
  intros (buf & Hslots & Hsize & Hcap).
  unfold GetSize, IsEmpty, elements. rewrite Hslots. simpl.
  assert (length (take (Z.to_nat (size_ this)) buf) = Z.to_nat (size_ this))
    as Hlen by (rewrite length_take; lia).
  split; [lia |]. split.
  - intros Hzero. apply nil_length_inv. lia.
  - intros Hnil. rewrite Hnil in Hlen. simpl in Hlen. lia.
Qed.

(** X6.  The range [[begin, end)] is the live elements: [end - begin] is the
    size, the const accessors are the same positions, and every position of
    the range can be dereferenced and holds the element of its offset. *)
Theorem iterator_range_is_live this h :
  valid this h ->
  ptr_diff (end_ this) (begin this) = GetSize this
  ∧ cbegin this = begin this ∧ cend this = end_ this
  ∧ (forall pos,
       ptr_le (begin this) pos = true -> ptr_lt pos (end_ this) = true ->
       ∃ x, load pos h = Ok x h
            ∧ elements this h !! Z.to_nat (ptr_diff pos (begin this)) = Some x).
Proof.
  intros Hvalid. split_and!.
  - unfold ptr_diff, end_, begin, Get, ptr_add, GetSize. simpl. lia.
  - done.
  - done.
  - intros pos Hlo Hhi.
    apply position_inv in Hlo as [Hblock Hlo].
    apply position_lt_inv in Hhi as [_ Hhi].
    unfold begin, end_, Get, ptr_add, ptr_diff in *. simpl in *.
    destruct (slot_live (index pos) this h) as (x & Hload & Hx); [done | lia |].
    exists x. replace (index pos - 0) with (index pos) by lia.
    split; [| done].
    destruct pos as [pb pi]. simpl in *. subst pb. exact Hload.
Qed.

(** ** PopBack *)

(** X7.  [PopBack] on a non-empty vector drops the last live element and
    nothing else, without touching the heap; on an empty vector its assertion
    fails. *)
Theorem PopBack_removes_last this h :
  valid this h -> GetSize this <= SIZE_MAX ->
  (0 < GetSize this ->
     ∃ this' x,
       PopBack this h = Ok this' h
       ∧ valid this' h
       ∧ GetSize this' = GetSize this - 1
       ∧ elements this h = elements this' h ++ [x])
  ∧ (GetSize this = 0 -> PopBack this h = Undefined).
Proof.
  intros (buf & Hslots & Hsize & Hcap) Hfit. unfold GetSize in *.
  unfold PopBack. split.
  - intros Hpos. destruct (0 <? size_ this) eqn:E; [| lia].
    rewrite size_t_small by lia.
    destruct (lookup_lt_is_Some_2 buf (Z.to_nat (size_ this - 1))) as [x Hx];
      [lia |].
    eexists _, x. split; [reflexivity |]. simpl.
    split_and!; [| done |].
    + exists buf. unfold slots in *. simpl. split_and!; [done | lia | lia | lia | lia].
    + unfold elements, slots in *. simpl. rewrite Hslots. simpl.
      replace (Z.to_nat (size_ this)) with (S (Z.to_nat (size_ this - 1))) by lia.
      by erewrite take_S_r.
  - intros Hzero. destruct (0 <? size_ this) eqn:E; [lia | done].
Qed.

(** ** PushBack, step by step *)

Lemma bind_at {A B} (m m' : M A) (k : A -> M B) h :
  m h = m' h -> (m ≫= k) h = (m' ≫= k) h.
Proof. intros E. unfold mbind, M_bind. by rewrite E. Qed.

(** The growth step written out in [PushBack(const Type&)] and the call of
    [Reserve] in [PushBack(Type&&)] leave the same vector and the same heap. *)
Lemma grow_paths_agree this h buf n :
  slots this h = Some buf ->
  0 <= size_ this <= Z.of_nat (length buf) ->
  size_ this <= n -> 0 <= capacity_ this < n ->
  (new_data ← ArrayPtr_new n;
   PushBack_loop (Z.to_nat (size_ this)) new_data (data_ this) 0;;
   let '(data, new_data') := ArrayPtr_swap (data_ this) new_data in
   ArrayPtr_delete new_data';;
   mret {| data_ := data; size_ := size_ this; capacity_ := n |}) h
  = Reserve n this h.
Proof.
  intros Hslots Hsize Hroom Hcap.
  destruct (ArrayPtr_new_Ok n h) as (a & Hfresh & Hnew); [lia |].
  unfold Reserve. destruct (capacity_ this <? n) eqn:E; [| lia].
  erewrite (bind_Ok (ArrayPtr_new n)); [| exact Hnew].
  erewrite (bind_Ok (ArrayPtr_new n)); [| exact Hnew].
  unfold slots in Hslots. unfold std_move, begin, end_, ptr_diff. simpl.
  replace (0 + size_ this - 0) with (size_ this) by lia.
  destruct (data_ this) as [o|] eqn:Hdata.
  - assert (o ≠ a) as Hoa by (intros ->; congruence).
    set (h0 := <[a := replicate (Z.to_nat n) Type_default]> h).
    assert (h0 !! o = Some buf) as Ho by (unfold h0; by rewrite lookup_insert_ne).
    assert (h0 !! a = Some (replicate (Z.to_nat n) Type_default)) as Ha
      by (unfold h0; by rewrite lookup_insert_eq).
    destruct (PushBack_loop_spec (Z.to_nat (size_ this)) o a 0 buf
                (replicate (Z.to_nat n) Type_default) h0)
      as (lb1 & Hrun1 & Hlen1 & Hlk1); try done;
      [lia | rewrite length_replicate; lia |].
    destruct (std_move_n_blocks (Z.to_nat (size_ this))
                (Get (Some o)) (Get (Some a)) o a 0 buf
                (replicate (Z.to_nat n) Type_default) h0)
      as (la' & lb2 & Hrun2 & Hlena & Hlen2 & Hlk2); try done;
      [lia | rewrite length_replicate; lia |].
    assert (lb1 = lb2) as <-.
    { apply list_eq. intros k. by rewrite Hlk1, Hlk2. }
    simpl in Hrun1. erewrite bind_Ok; [| exact Hrun1].
    erewrite (bind_Ok (std_move_n _ _ _)); [| exact Hrun2].
    simpl. unfold ArrayPtr_delete, mbind, M_bind, mret, M_ret.
    rewrite (lookup_insert_ne h0 a o) by done. rewrite Ho.
    rewrite (lookup_insert_ne (<[o := la']> h0) a o) by done.
    rewrite lookup_insert_eq.
    f_equal.
    rewrite !(delete_insert_ne _ o a) by done.
    by rewrite delete_insert_eq.
  - injection Hslots as <-. simpl in Hsize.
    replace (size_ this) with 0 by lia. reflexivity.
Qed.

(** On a vector with [size <= capacity] both overloads of [PushBack] are the
    same function of the vector and the heap. *)
Lemma PushBack_is_PushBack_move item this h :
  valid this h -> I1 this -> size_ this <= PTRDIFF_MAX ->
  PushBack item this h = PushBack_move item this h.
Proof.
  intros (buf & Hslots & Hsize & Hcap) HI1 Hfit. unfold I1 in HI1.
  unfold PushBack, PushBack_move.
  destruct (size_ this =? capacity_ this) eqn:Efull; [| done].
  apply bind_at. apply (grow_paths_agree this h buf); try done.
  - destruct (capacity_ this =? 0) eqn:E0; [lia |].
    unfold PTRDIFF_MAX in Hfit.
    rewrite size_t_small by (unfold SIZE_MAX; lia). lia.
  - destruct (capacity_ this =? 0) eqn:E0; [lia |].
    unfold PTRDIFF_MAX in Hfit.
    rewrite size_t_small by (unfold SIZE_MAX; lia). lia.
Qed.

Lemma PushBack_move_heap item this h :
  valid this h -> I1 this -> size_ this <= PTRDIFF_MAX ->
  ∃ this' h',
    PushBack_move item this h = Ok this' h'
    ∧ pushed item this h this' h'
    ∧ push_heap this h this' h'.
Proof.
  intros Hvalid HI1 Hfit.
  destruct (PushBack_move_spec item this h Hvalid HI1 Hfit)
    as (this' & h' & Hrun & Hpushed).
  exists this', h'. split_and!; [done | done |].
  destruct Hvalid as (buf & Hslots & Hsize & Hcap). unfold I1 in HI1.
  unfold PTRDIFF_MAX in Hfit.
  revert Hrun. unfold PushBack_move.
  destruct (size_ this =? capacity_ this) eqn:Efull.
  - set (n := if capacity_ this =? 0 then 1 else size_t (capacity_ this * 2)).
    assert (capacity_ this < n) as Hgrow.
    { unfold n. destruct (capacity_ this =? 0) eqn:E0; [lia |].
      rewrite size_t_small by (unfold SIZE_MAX; lia). lia. }
    destruct (Reserve_grow this h buf n)
      as (a & buf' & Hfresh & Hres & Hlen & Hlive & _); try done; try lia.
    erewrite bind_Ok; [| exact Hres]. simpl.
    erewrite bind_Ok; cycle 1.
    { eapply (store_Ok _ a (Z.to_nat (size_ this))); simpl;
        [done | lia | by rewrite lookup_insert_eq | lia]. }
    unfold mret, M_ret. intros [= <- <-]. rewrite insert_insert_eq.
    unfold push_heap. simpl. split_and!.
    + intros b l Hb Hne.
      rewrite lookup_insert_ne by (intros ->; congruence).
      unfold released. destruct (data_ this) as [o|]; [| done].
      rewrite lookup_delete_ne by congruence. done.
    + lia.
    + intros _. split.
      * intros o Ho. unfold slots in Hslots. rewrite Ho in Hslots.
        rewrite lookup_insert_ne by (intros ->; congruence).
        unfold released. rewrite Ho. by rewrite lookup_delete_eq.
      * by intros a' [= <-].
  - erewrite bind_Ok; [| reflexivity].
    unfold slots in Hslots.
    destruct (data_ this) as [a|] eqn:Hdata; cycle 1.
    { injection Hslots as <-. simpl in *. lia. }
    erewrite bind_Ok; cycle 1.
    { eapply (store_Ok _ a (Z.to_nat (size_ this))); simpl;
        [done | lia | done | lia]. }
    unfold mret, M_ret. intros [= <- <-].
    unfold push_heap. simpl. rewrite Hdata. split_and!.
    + intros b l Hb Hne. rewrite lookup_insert_ne by congruence. done.
    + intros _. split; [done |].
      rewrite dom_insert_L. apply subseteq_union_1_L.
      apply singleton_subseteq_l, elem_of_dom. eauto.
    + lia.
Qed.

Lemma PushBack_heap item this h :
  valid this h -> I1 this -> size_ this <= PTRDIFF_MAX ->
  ∃ this' h',
    PushBack item this h = Ok this' h'
    ∧ pushed item this h this' h'
    ∧ push_heap this h this' h'.
Proof.
  intros Hvalid HI1 Hfit.
  rewrite PushBack_is_PushBack_move by done.
  by apply PushBack_move_heap.
Qed.

Lemma PushBack_call_heap p this h :
  valid this h -> I1 this -> size_ this <= PTRDIFF_MAX ->
  ∃ this' h',
    PushBack_call p this h = Ok this' h'
    ∧ pushed (pushed_item p) this h this' h'
    ∧ push_heap this h this' h'.
Proof.
  destruct p; simpl; [apply PushBack_heap | apply PushBack_move_heap].
Qed.


(** X9.  Pushes that fit in the spare capacity never reallocate: after any
    sequence of [PushBack] calls no longer than [capacity - size], the vector
    still has its buffer and its capacity, no block was allocated or
    released, the blocks of other owners are untouched, and the items follow
    the old elements. *)
Theorem PushBack_within_capacity ps : forall this h,
  valid this h ->
  size_ this + Z.of_nat (length ps) <= capacity_ this ->
  capacity_ this <= PTRDIFF_MAX ->
  ∃ this' h',
    PushBack_calls ps this h = Ok this' h'
    ∧ data_ this' = data_ this
    ∧ GetCapacity this' = GetCapacity this
    ∧ GetSize this' = GetSize this + Z.of_nat (length ps)
    ∧ elements this' h' = elements this h ++ (pushed_item <$> ps)
    ∧ dom h' = dom h
    ∧ (forall b l, h !! b = Some l -> data_ this ≠ Some b -> h' !! b = Some l).
Proof.
  unfold GetCapacity, GetSize.
  induction ps as [|p rest IH]; intros this h Hvalid Hroom Hfit.
  - exists this, h. simpl. rewrite app_nil_r.
    split_and!; [done | done | done | lia | done | done | done].
  - simpl in Hroom.
    destruct (PushBack_call_heap p this h)
      as (this1 & h1 & Hrun & (Hvalid1 & _ & Hsize1 & Hcap1 & Helems1)
          & Hframe1 & Hkeep1 & _);
      [done | unfold I1; lia | lia |].
    destruct Hkeep1 as [Hdata1 Hdom1]; [lia |].
    rewrite decide_False in Hcap1 by lia.
    destruct (IH this1 h1) as (this' & h' & Hrest & Hd & Hc & Hs & He & Hdom & Hfr);
      [done | lia | lia |].
    exists this', h'. simpl. erewrite bind_Ok; [| exact Hrun].
    split_and!; [done | congruence | congruence | lia | | congruence |].
    + rewrite He, Helems1, <- app_assoc. done.
    + intros b l Hb Hne. apply Hfr; [by apply Hframe1 | congruence].
Qed.

(** X10.  [Clear] keeps the storage for reuse: a cleared vector has no live
    elements, and the next [PushBack] on it writes into the old buffer, with
    the old capacity and without allocating. *)
Theorem Clear_then_PushBack item this h :
  valid this h -> 0 < GetCapacity this -> GetCapacity this <= PTRDIFF_MAX ->
  elements (Clear this) h = []
  ∧ ∃ this' h',
      PushBack item (Clear this) h = Ok this' h'
      ∧ data_ this' = data_ this
      ∧ GetCapacity this' = GetCapacity this
      ∧ elements this' h' = [item]
      ∧ dom h' = dom h.
Proof.
  intros (buf & Hslots & Hsize & Hcap) Hpos Hfit. unfold GetCapacity in *.
  split; [done |].
  destruct (PushBack_heap item (Clear this) h)
    as (this' & h' & Hrun & (_ & _ & _ & Hcap' & Helems') & _ & Hkeep & _).
  - exists buf. unfold Clear, slots in *. simpl.
    split_and!; [done | lia | lia | lia | lia].
  - unfold I1, Clear. simpl. lia.
  - unfold Clear, PTRDIFF_MAX. simpl. lia.
  - simpl in *. destruct Hkeep as [Hdata Hdom]; [lia |].
    rewrite decide_False in Hcap' by lia.
    exists this', h'. split_and!; done.
Qed.

(** ** Reserve and the heap *)

(** X11.  A growing [Reserve] on a vector with [size <= capacity] neither
    leaks nor touches what it does not own: the new buffer is a block that
    was not allocated before, the old buffer is released, every other block
    keeps its contents, and no further block appears. *)
Theorem Reserve_releases_old_block this h new_capacity :
  valid this h -> I1 this -> GetCapacity this < new_capacity ->
  ∃ this' h' a,
    Reserve new_capacity this h = Ok this' h'
    ∧ data_ this' = Some a
    ∧ h !! a = None
    ∧ (forall o, data_ this = Some o -> h' !! o = None)
    ∧ (forall b l, h !! b = Some l -> data_ this ≠ Some b -> h' !! b = Some l)
    ∧ (forall b, is_Some (h' !! b) -> b = a ∨ is_Some (h !! b)).
Proof.
  intros (buf & Hslots & Hsize & Hcap) HI1 Hgrow.
  unfold I1, GetCapacity in *.
  destruct (Reserve_grow this h buf new_capacity)
    as (a & buf' & Hfresh & Hrun & _); try done; try lia.
  eexists _, _, a. split; [exact Hrun |]. simpl.
  unfold slots in Hslots.
  split_and!; [done | done | | |].
  - intros o Ho. rewrite Ho in Hslots.
    rewrite lookup_insert_ne by (intros ->; congruence).
    unfold released. rewrite Ho. by rewrite lookup_delete_eq.
  - intros b l Hb Hne.
    rewrite lookup_insert_ne by (intros ->; congruence).
    unfold released. destruct (data_ this) as [o|]; [| done].
    rewrite lookup_delete_ne by congruence. done.
  - intros b Hb. destruct (decide (b = a)) as [-> | Hne]; [by left | right].
    rewrite lookup_insert_ne in Hb by done.
    unfold released in Hb. destruct (data_ this) as [o|]; [| done].
    destruct (decide (o = b)) as [-> | Hob].
    + rewrite lookup_delete_eq in Hb. by destruct Hb.
    + by rewrite lookup_delete_ne in Hb.
Qed.

(** ** Copies are independent *)


(** ** Insert and Erase at the end *)


(** X16.  [Erase] of the last element is [PopBack]: on a non-empty vector it
    returns the vector [PopBack] returns, moves nothing and leaves the heap as
    it was; the position it returns is the new [end()]. *)
Theorem Erase_last_is_PopBack this h :
  0 < GetSize this ->
  ∃ this',
    PopBack this h = Ok this' h
    ∧ Erase (ptr_add (end_ this) (-1)) this h
      = Ok (ptr_add (end_ this) (-1), this') h.
Proof.
  unfold GetSize. intros Hpos.
  eexists. split.
  - unfold PopBack. destruct (0 <? size_ this) eqn:E; [| lia]. reflexivity.
  - unfold Erase.
    unfold begin, end_, Get, ptr_add, ptr_le, ptr_lt, ptr_diff. simpl.
    rewrite bool_decide_eq_true_2 by done. simpl.
    destruct (0 <=? 0 + size_ this + -1) eqn:E1; [| lia].
    destruct (0 + size_ this + -1 <? 0 + size_ this) eqn:E2; [| lia]. simpl.
    erewrite bind_Ok; [| reflexivity].
    unfold std_move, ptr_diff. simpl.
    replace (0 + size_ this - (0 + (0 + size_ this + -1 - 0 + 1))) with 0 by lia.
    simpl. erewrite bind_Ok; [| reflexivity].
    unfold mret, M_ret. f_equal. f_equal. f_equal. lia.
Qed.

(** ** Assignment between two objects *)


(** X18.  Move assignment between two different objects that own different
    buffers: the left-hand side becomes what the right-hand side was, with
    its buffer and so its elements; the right-hand side becomes the empty
    vector; the buffer the left-hand side had is released; every other object
    stays as it is. *)
Theorem move_assignment_correct this rhs (objs : objects) t r h :
  this ≠ rhs ->
  objs !! this = Some t -> objs !! rhs = Some r ->
  valid t h ->
  (forall a, data_ t = Some a -> data_ r ≠ Some a) ->
  ∃ h',
    assign_move this rhs objs h
    = Ok (<[rhs := SimpleVector_default]> (<[this := r]> objs)) h'
    ∧ elements r h' = elements r h
    ∧ (forall o, data_ t = Some o -> h' !! o = None)
    ∧ (forall b l, h !! b = Some l -> data_ t ≠ Some b -> h' !! b = Some l).
Proof.
  intros Hne Ht Hr (buft & Hslotst & _) Hown.
  exists (released (data_ t) h).
  unfold slots in Hslotst.
  assert (ArrayPtr_delete (data_ t) h = Ok tt (released (data_ t) h)) as Hdel.
  { unfold ArrayPtr_delete, released.
    destruct (data_ t) as [o|]; [| done]. by rewrite Hslotst. }
  split_and!.
  - unfold assign_move. rewrite bool_decide_eq_true_2 by done.
    rewrite Ht, Hr. unfold ArrayPtr_move_assign.
    unfold mbind at 1. unfold M_bind.
    erewrite bind_Ok; [| exact Hdel].
    unfold mret, M_ret. simpl. by destruct r.
  - unfold elements, slots, released.
    destruct (data_ r) as [a|] eqn:Ha; [| done].
    destruct (data_ t) as [o|] eqn:Ho; [| done].
    rewrite lookup_delete_ne; [done | intros ->; by eapply Hown].
  - intros o Ho. unfold released. rewrite Ho. by rewrite lookup_delete_eq.
  - intros b l Hb Hnb. unfold released.
    destruct (data_ t) as [o|]; [| done].
    rewrite lookup_delete_ne by congruence. done.
Qed.

(** ** Comparison operators *)

Lemma readable_cons first h x xs :
  readable first h (x :: xs) ->
  load first h = Ok x h ∧ readable (ptr_add first 1) h xs.
Proof.
  intros Hread. split.
  - specialize (Hread 0%nat x eq_refl).
    replace (ptr_add first (Z.of_nat 0)) with first in Hread; [done |].
    destruct first. unfold ptr_add. simpl. f_equal. lia.
  - intros k y Hk. specialize (Hread (S k) y Hk).
    replace (ptr_add (ptr_add first 1) (Z.of_nat k))
      with (ptr_add first (Z.of_nat (S k))); [done |].
    unfold ptr_add. simpl. f_equal. lia.
Qed.

(** The range of a vector reads as its live elements. *)
Lemma readable_elements this h :
  valid this h ->
  readable (begin this) h (elements this h)
  ∧ length (elements this h) = Z.to_nat (size_ this).
Proof.
  intros (buf & Hslots & Hsize & Hcap).
  unfold elements. rewrite Hslots. simpl. split; [| rewrite length_take; lia].
  intros k x Hk.
  assert (k < Z.to_nat (size_ this))%nat as Hlt.
  { apply lookup_lt_Some in Hk. rewrite length_take in Hk. lia. }
  rewrite lookup_take_lt in Hk by done.
  unfold slots in Hslots.
  destruct (data_ this) as [a|] eqn:Hdata; cycle 1.
  { injection Hslots as <-. done. }
  eapply (load_Ok _ a k); eauto.
Qed.

Lemma std_equal_n_spec n : forall first1 first2 xs ys h,
  (forall x y, Type_eqb x y = true <-> x = y) ->
  readable first1 h xs -> readable first2 h ys ->
  length xs = n -> length ys = n ->
  ∃ b, std_equal_n n first1 first2 h = Ok b h ∧ (b = true <-> xs = ys).
Proof.
  induction n as [|n IH]; intros first1 first2 xs ys h Heqb Hr1 Hr2 Hl1 Hl2.
  - apply nil_length_inv in Hl1 as ->. apply nil_length_inv in Hl2 as ->.
    exists true. done.
  - destruct xs as [|x xs]; [done |]. destruct ys as [|y ys]; [done |].
    apply readable_cons in Hr1 as [Hx Hr1].
    apply readable_cons in Hr2 as [Hy Hr2].
    simpl in Hl1, Hl2. simpl std_equal_n.
    erewrite bind_Ok; [| exact Hx]. erewrite bind_Ok; [| exact Hy].
    destruct (Type_eqb x y) eqn:E.
    + apply Heqb in E as ->.
      destruct (IH (ptr_add first1 1) (ptr_add first2 1) xs ys h)
        as (b & Hrun & Hb); try done; try lia.
      exists b. split; [done |]. rewrite Hb. split; [by intros -> | by intros [= ->]].
    + exists false. split; [done |]. split; [done |].
      intros [= -> _]. assert (Type_eqb y y = true) by (by apply Heqb). congruence.
Qed.

Lemma std_lexicographical_compare_n_spec n1 : forall n2 first1 first2 xs ys h,
  readable first1 h xs -> readable first2 h ys ->
  length xs = n1 -> length ys = n2 ->
  std_lexicographical_compare_n n1 n2 first1 first2 h
  = Ok (lexicographic xs ys) h.
Proof.
  induction n1 as [|n1 IH]; intros n2 first1 first2 xs ys h Hr1 Hr2 Hl1 Hl2.
  - apply nil_length_inv in Hl1 as ->.
    destruct n2, ys; try done.
  - destruct xs as [|x xs]; [done |].
    destruct n2 as [|n2].
    + apply nil_length_inv in Hl2 as ->. done.
    + destruct ys as [|y ys]; [done |].
      apply readable_cons in Hr1 as [Hx Hr1].
      apply readable_cons in Hr2 as [Hy Hr2].
      simpl in Hl1, Hl2. simpl.
      erewrite bind_Ok; [| exact Hx]. erewrite bind_Ok; [| exact Hy].
      destruct (Type_ltb x y); [done |].
      destruct (Type_ltb y x); [done |].
      apply IH; try done; lia.
Qed.

Lemma operator_lt_run lhs rhs h :
  valid lhs h -> valid rhs h ->
  operator_lt lhs rhs h
  = Ok (lexicographic (elements lhs h) (elements rhs h)) h.
Proof.
  intros Hl Hr.
  destruct (readable_elements lhs h Hl) as [Hr1 Hl1].
  destruct (readable_elements rhs h Hr) as [Hr2 Hl2].
  unfold operator_lt, std_lexicographical_compare.
  apply std_lexicographical_compare_n_spec; try done.
  - rewrite Hl1. unfold ptr_diff, end_, begin, Get, ptr_add. simpl. f_equal. lia.
  - rewrite Hl2. unfold ptr_diff, end_, begin, Get, ptr_add. simpl. f_equal. lia.
Qed.

Lemma operator_eq_run lhs rhs h :
  (forall x y, Type_eqb x y = true <-> x = y) ->
  valid lhs h -> valid rhs h ->
  ∃ b, operator_eq lhs rhs h = Ok b h
       ∧ (b = true <-> elements lhs h = elements rhs h).
Proof.
  intros Heqb Hl Hr.
  destruct (readable_elements lhs h Hl) as [Hr1 Hl1].
  destruct (readable_elements rhs h Hr) as [Hr2 Hl2].
  destruct Hl as (bufl & _ & Hsl & _). destruct Hr as (bufr & _ & Hsr & _).
  unfold operator_eq, GetSize.
  destruct (size_ lhs =? size_ rhs) eqn:E.
  - unfold std_equal.
    apply (std_equal_n_spec _ (begin lhs) (begin rhs)); try done.
    + rewrite Hl1. unfold ptr_diff, end_, begin, Get, ptr_add. simpl. f_equal. lia.
    + rewrite Hl2. unfold ptr_diff, end_, begin, Get, ptr_add. simpl.
      f_equal. lia.
  - exists false. split; [done |]. split; [done |].
    intros Heq. rewrite Heq in Hl1. lia.
Qed.

(** Lexicographic order over an irreflexive, asymmetric and total [<]. *)
Lemma lexicographic_irrefl xs :
  (forall x, Type_ltb x x = false) -> lexicographic xs xs = false.
Proof.
  intros Hirr. induction xs as [|x xs IH]; [done |].
  simpl. by rewrite Hirr.
Qed.

Lemma lexicographic_prefix xs ys :
  (forall x, Type_ltb x x = false) ->
  lexicographic xs (xs ++ ys) = negb (bool_decide (ys = []))
  ∧ lexicographic (xs ++ ys) xs = false.
Proof.
  intros Hirr. induction xs as [|x xs [IH1 IH2]].
  - simpl. destruct ys; done.
  - simpl. by rewrite Hirr.
Qed.

Lemma lexicographic_asym xs : forall ys,
  (forall x y, Type_ltb x y = true -> Type_ltb y x = false) ->
  lexicographic xs ys = true -> lexicographic ys xs = false.
Proof.
  intros ys Hasym. revert ys.
  induction xs as [|x xs IH]; intros [|y ys]; simpl; try done.
  destruct (Type_ltb x y) eqn:Exy.
  - intros _. by rewrite (Hasym x y Exy).
  - destruct (Type_ltb y x) eqn:Eyx; [done |]. apply IH.
Qed.

Lemma lexicographic_total xs : forall ys,
  (forall x y, Type_ltb x y = false -> Type_ltb y x = false -> x = y) ->
  lexicographic xs ys = false -> lexicographic ys xs = false -> xs = ys.
Proof.
  intros ys Htotal. revert ys.
  induction xs as [|x xs IH]; intros [|y ys]; simpl; try done.
  destruct (Type_ltb x y) eqn:Exy; [done |].
  destruct (Type_ltb y x) eqn:Eyx; [done |].
  intros H1 H2. rewrite (Htotal x y Exy Eyx). f_equal. by apply IH.
Qed.

(** X19.  For an element type whose [==] is equality: [operator==] on two
    vectors returns true exactly when they hold the same live elements in
    the same order, [operator!=] returns the opposite, and neither changes
    the heap. *)
Theorem operator_eq_correct lhs rhs h :
  (forall x y, Type_eqb x y = true <-> x = y) ->
  valid lhs h -> valid rhs h ->
  ∃ b,
    operator_eq lhs rhs h = Ok b h
    ∧ operator_ne lhs rhs h = Ok (negb b) h
    ∧ (b = true <-> elements lhs h = elements rhs h).
Proof.
  intros Heqb Hl Hr.
  destruct (operator_eq_run lhs rhs h Heqb Hl Hr) as (b & Hrun & Hb).
  exists b. split_and!; [done | | done].
  unfold operator_ne. erewrite bind_Ok; [| exact Hrun]. done.
Qed.

(** X20.  The four ordering operators compare the live elements
    lexicographically and do not change the heap: [<] is the lexicographic
    order, [>] is [<] with the operands exchanged, [<=] is the opposite of
    [>] and [>=] the opposite of [<]. *)
Theorem ordering_operators_lexicographic lhs rhs h :
  valid lhs h -> valid rhs h ->
  operator_lt lhs rhs h
  = Ok (lexicographic (elements lhs h) (elements rhs h)) h
  ∧ operator_gt lhs rhs h
    = Ok (lexicographic (elements rhs h) (elements lhs h)) h
  ∧ operator_le lhs rhs h
    = Ok (negb (lexicographic (elements rhs h) (elements lhs h))) h
  ∧ operator_ge lhs rhs h
    = Ok (negb (lexicographic (elements lhs h) (elements rhs h))) h.
Proof.
  intros Hl Hr.
  pose proof (operator_lt_run lhs rhs h Hl Hr) as Hlt.
  pose proof (operator_lt_run rhs lhs h Hr Hl) as Hgt.
  unfold operator_gt, operator_le, operator_ge.
  split_and!; [done | done | |].
  - erewrite bind_Ok; [| exact Hgt]. done.
  - erewrite bind_Ok; [| exact Hlt]. done.
Qed.

(** X21.  For an element type whose [<] is irreflexive: a vector is not less
    than itself, and a vector whose live elements are a proper prefix of
    another's is less than it, and not the other way round. *)
Theorem prefix_is_less lhs rhs h ys :
  (forall x, Type_ltb x x = false) ->
  valid lhs h -> valid rhs h ->
  elements rhs h = elements lhs h ++ ys -> ys ≠ [] ->
  operator_lt lhs lhs h = Ok false h
  ∧ operator_lt lhs rhs h = Ok true h
  ∧ operator_lt rhs lhs h = Ok false h.
Proof.
  intros Hirr Hl Hr Hprefix Hys.
  rewrite (operator_lt_run lhs lhs h), (operator_lt_run lhs rhs h),
    (operator_lt_run rhs lhs h) by done.
  rewrite Hprefix.
  destruct (lexicographic_prefix (elements lhs h) ys Hirr) as [H1 H2].
  rewrite H1, H2, lexicographic_irrefl by done.
  rewrite bool_decide_eq_false_2 by done. done.
Qed.

(** X22.  For an element type whose [<] is a strict total order and whose
    [==] is equality, exactly one of [lhs < rhs], [lhs == rhs], [lhs > rhs]
    holds, [<=] is [<] or [==], and [>=] is [>] or [==]. *)
Theorem comparison_trichotomy lhs rhs h :
  (forall x y, Type_eqb x y = true <-> x = y) ->
  (forall x y, Type_ltb x y = true -> Type_ltb y x = false) ->
  (forall x y, Type_ltb x y = false -> Type_ltb y x = false -> x = y) ->
  valid lhs h -> valid rhs h ->
  ∃ lt eq gt,
    operator_lt lhs rhs h = Ok lt h
    ∧ operator_eq lhs rhs h = Ok eq h
    ∧ operator_gt lhs rhs h = Ok gt h
    ∧ operator_le lhs rhs h = Ok (lt || eq) h
    ∧ operator_ge lhs rhs h = Ok (gt || eq) h
    ∧ ((lt, eq, gt) = (true, false, false)
       ∨ (lt, eq, gt) = (false, true, false)
       ∨ (lt, eq, gt) = (false, false, true)).
Proof.
  intros Heqb Hasym Htotal Hl Hr.
  destruct (operator_eq_run lhs rhs h Heqb Hl Hr) as (eq & Heq & Heq_iff).
  pose proof (operator_lt_run lhs rhs h Hl Hr) as Hlt.
  pose proof (operator_lt_run rhs lhs h Hr Hl) as Hgt.
  assert (forall x, Type_ltb x x = false) as Hirr.
  { intros x. destruct (Type_ltb x x) eqn:E; [| done].
    by rewrite (Hasym x x E) in E. }
  set (xs := elements lhs h) in *. set (ys := elements rhs h) in *.
  exists (lexicographic xs ys), eq, (lexicographic ys xs).
  unfold operator_gt, operator_le, operator_ge.
  rewrite (bind_Ok _ _ _ _ _ Hgt), (bind_Ok _ _ _ _ _ Hlt).
  assert ((lexicographic xs ys, eq, lexicographic ys xs) = (true, false, false)
          ∨ (lexicographic xs ys, eq, lexicographic ys xs) = (false, true, false)
          ∨ (lexicographic xs ys, eq, lexicographic ys xs) = (false, false, true))
    as Hcases.
  { destruct (lexicographic xs ys) eqn:E1.
    - left. rewrite (lexicographic_asym xs ys Hasym E1).
      destruct eq; [| done].
      assert (xs = ys) as Hsame by (by apply Heq_iff).
      rewrite Hsame, lexicographic_irrefl in E1 by done. done.
    - destruct (lexicographic ys xs) eqn:E2.
      + right. right. destruct eq; [| done].
        assert (xs = ys) as Hsame by (by apply Heq_iff).
        rewrite Hsame, lexicographic_irrefl in E2 by done. done.
      + right. left.
        assert (xs = ys) as Hsame by (by apply (lexicographic_total xs ys Htotal)).
        apply Heq_iff in Hsame as ->. done. }
  split_and!; [done | done | done | | | done].
  - unfold mret, M_ret. f_equal.
    destruct Hcases as [[= -> -> ->] | [[= -> -> ->] | [= -> -> ->]]]; done.
  - unfold mret, M_ret. f_equal.
    destruct Hcases as [[= -> -> ->] | [[= -> -> ->] | [= -> -> ->]]]; done.
Qed.

(** ** Resize, down and up *)

(** A growing [Resize], with what it does to the buffer. *)
Lemma Resize_up this h new_size :
  valid this h -> doubling_fits this -> size_ this < new_size ->
  ∃ this' h',
    Resize new_size this h = Ok this' h'
    ∧ valid this' h'
    ∧ size_ this' = new_size
    ∧ elements this' h'
      = elements this h
        ++ replicate (Z.to_nat (new_size - size_ this)) Type_default
    ∧ (new_size <= capacity_ this ->
         data_ this' = data_ this
         ∧ capacity_ this' = capacity_ this
         ∧ dom h' = dom h).
Proof.
  intros (buf & Hslots & Hsize & Hcap) Hfits Hlt.
  unfold doubling_fits, PTRDIFF_MAX in Hfits. unfold Resize.
  destruct (new_size <=? size_ this) eqn:Etrunc; [lia |].
  rewrite (size_t_small (capacity_ this * 2)) by (unfold SIZE_MAX; lia).
  destruct (capacity_ this <? new_size) eqn:Egrow.
  - set (m := if capacity_ this * 2 <? new_size then new_size
              else capacity_ this * 2).
    assert (new_size <= m) as Hm.
    { unfold m. destruct (capacity_ this * 2 <? new_size) eqn:E; lia. }
    destruct (Reserve_grow this h buf m)
      as (a & buf' & Hfresh & Hrun & Hlen & Hlive & _); try done; try lia.
    erewrite bind_Ok; [| exact Hrun]. simpl.
    destruct (Resize_loop_tail a buf' (<[a := buf']> (released (data_ this) h))
                (size_ this) new_size)
      as (l' & Hloop & Hlen' & Htake); [by rewrite lookup_insert_eq | lia | lia |].
    erewrite bind_Ok; [| exact Hloop].
    eexists _, _. split; [reflexivity |]. simpl.
    split_and!; [| done | | lia].
    + exists l'. unfold slots. simpl. rewrite lookup_insert_eq.
      split_and!; [done | lia | lia | lia | lia].
    + unfold elements, slots. simpl. rewrite lookup_insert_eq. simpl.
      rewrite Htake, Hlive. unfold slots in Hslots. by rewrite Hslots.
  - unfold slots in Hslots.
    destruct (data_ this) as [a|] eqn:Hdata; cycle 1.
    { injection Hslots as <-. simpl in *. lia. }
    erewrite bind_Ok; [| reflexivity]. rewrite Hdata.
    destruct (Resize_loop_tail a buf h (size_ this) new_size)
      as (l' & Hloop & Hlen' & Htake); [done | lia | lia |].
    erewrite bind_Ok; [| exact Hloop].
    eexists _, _. split; [reflexivity |]. simpl.
    split_and!; [| done | |].
    + exists l'. unfold slots. simpl. rewrite lookup_insert_eq.
      split_and!; [done | lia | lia | lia | lia].
    + unfold elements, slots. simpl. rewrite Hdata.
      rewrite lookup_insert_eq, Hslots. simpl. done.
    + intros _. split_and!; [done | done |].
      rewrite dom_insert_L. apply subseteq_union_1_L.
      apply singleton_subseteq_l, elem_of_dom. eauto.
Qed.

(** X23.  Stale values never come back: after [Resize(k)] down to [k] live
    elements and [Resize(n)] up again, the vector holds its first [k] old
    elements followed by [n - k] default values; when [n] is within the
    capacity, both calls keep the buffer and the capacity and allocate
    nothing. *)
Theorem Resize_down_then_up this h k n :
  valid this h -> doubling_fits this ->
  0 <= k <= GetSize this -> k <= n ->
  ∃ this1 this2 h2,
    Resize k this h = Ok this1 h
    ∧ Resize n this1 h = Ok this2 h2
    ∧ GetSize this2 = n
    ∧ elements this2 h2
      = take (Z.to_nat k) (elements this h)
        ++ replicate (Z.to_nat (n - k)) Type_default
    ∧ (n <= GetCapacity this ->
         data_ this2 = data_ this
         ∧ GetCapacity this2 = GetCapacity this
         ∧ dom h2 = dom h).
Proof.
  intros Hvalid Hfits Hk Hn. unfold GetSize, GetCapacity in *.
  set (this1 := {| data_ := data_ this; size_ := k; capacity_ := capacity_ this |}).
  assert (Resize k this h = Ok this1 h) as Hdown.
  { unfold Resize. destruct (k <=? size_ this) eqn:E; [done | lia]. }
  destruct Hvalid as (buf & Hslots & Hsize & Hcap).
  assert (valid this1 h) as Hvalid1.
  { exists buf. unfold this1, slots in *. simpl.
    split_and!; [done | lia | lia | lia | lia]. }
  assert (elements this1 h = take (Z.to_nat k) (elements this h)) as Helems1.
  { unfold elements, this1, slots in *. simpl. rewrite Hslots. simpl.
    rewrite take_take. f_equal. lia. }
  destruct (decide (k = n)) as [<- | Hne].
  - exists this1, this1, h. split_and!; [done | | done | | done].
    + unfold Resize. simpl. destruct (k <=? k) eqn:E; [done | lia].
    + rewrite Helems1, Z.sub_diag. simpl. by rewrite app_nil_r.
  - destruct (Resize_up this1 h n) as (this2 & h2 & Hup & _ & Hs & He & Hkeep);
      [done | done | simpl; lia |].
    exists this1, this2, h2. simpl in *.
    split_and!; [done | done | done | by rewrite He, Helems1 | done].
Qed.

End Container.

Arguments Ok {Ty A} a h.
Arguments Throw {Ty A} e h.
Arguments Undefined {Ty A}.

(** ** The theorems at work on vectors of [int] *)

(** The example states are reachable through the public interface. *)
Example example_slack_reachable :
  (v ← SimpleVector_reserve 0 Z.opp 4; v ← PushBack 0 7 v; PushBack 0 8 v) ∅
  = Ok example_slack example_slack_heap.
Proof. vm_compute. reflexivity. Qed.

Example example_full_reachable :
  SimpleVector_init_list 0 [5; 6] ∅ = Ok example_full example_full_heap.
Proof. vm_compute. reflexivity. Qed.
Lemma example_slack_valid : valid example_slack example_slack_heap.
Proof. exists [7; 8; 0; 0]. split; [reflexivity | simpl; lia]. Defined.

Lemma example_full_valid : valid example_full example_full_heap.
Proof. exists [5; 6]. split; [reflexivity | simpl; lia]. Defined.

Lemma copy_constructor_correct_witness :
  valid example_slack example_slack_heap
  ∧ I1 example_slack
  ∧ ∃ B h' buf,
      SimpleVector_copy 0 example_slack example_slack_heap = Ok B h'
      ∧ GetSize B = GetSize example_slack
      ∧ elements B h' = elements example_slack example_slack_heap
      ∧ slots B h' = Some buf
      ∧ Z.of_nat (length buf) = GetCapacity example_slack
      ∧ (forall b, data_ B = Some b -> example_slack_heap !! b = None)
      ∧ (forall a l, example_slack_heap !! a = Some l -> h' !! a = Some l).
Proof.
  split; [exact example_slack_valid |].
  split; [unfold I1; simpl; lia |].
  apply (copy_constructor_correct 0 example_slack example_slack_heap).
  - exact example_slack_valid.
  - unfold I1. simpl. lia.
Defined.

(** C1 fails as stated: the copy of a vector of size 2 and capacity 4 reports
    capacity 0, not 2, while its block has 4 slots. *)
Lemma copy_capacity_counterexample :
  ∃ B h',
    SimpleVector_copy 0 example_slack example_slack_heap = Ok B h'
    ∧ GetSize example_slack = 2
    ∧ GetCapacity B = 0
    ∧ slots B h' = Some [7; 8; 0; 0]
    ∧ GetCapacity B ≠ GetSize example_slack.
Proof.
  eexists _, _. split; [vm_compute; reflexivity |].
  split_and!; [reflexivity | reflexivity | reflexivity | vm_compute; discriminate].
Qed.

Lemma copy_constructor_breaks_I1_witness :
  valid example_full example_full_heap
  ∧ I1 example_full
  ∧ 0 < GetSize example_full
  ∧ ∃ B h',
      SimpleVector_copy 0 example_full example_full_heap = Ok B h'
      ∧ GetSize B = GetSize example_full
      ∧ GetCapacity B = 0
      ∧ ¬ GetSize B <= GetCapacity B.
Proof.
  split; [exact example_full_valid |].
  split; [unfold I1; simpl; lia |].
  split; [simpl; lia |].
  apply (copy_constructor_breaks_I1 0 example_full example_full_heap).
  - exact example_full_valid.
  - unfold I1. simpl. lia.
  - simpl. lia.
Defined.


Lemma Resize_correct_witness :
  valid example_slack example_slack_heap
  ∧ doubling_fits example_slack
  ∧ ∃ this' h',
      Resize 0 id 5 example_slack example_slack_heap = Ok this' h'
      ∧ GetSize this' = 5
      ∧ (5 <= GetSize example_slack ->
           GetCapacity this' = GetCapacity example_slack
           ∧ data_ this' = data_ example_slack ∧ h' = example_slack_heap)
      ∧ (GetSize example_slack < 5 ->
           GetCapacity this'
           = (if decide (GetCapacity example_slack < 5)
              then Z.max 5 (GetCapacity example_slack * 2)
              else GetCapacity example_slack)
           ∧ elements this' h'
             = elements example_slack example_slack_heap
               ++ replicate (Z.to_nat (5 - GetSize example_slack)) 0).
Proof.
  split; [exact example_slack_valid |].
  split; [vm_compute; discriminate |].
  apply (Resize_correct 0 id example_slack example_slack_heap 5).
  - exact example_slack_valid.
  - vm_compute. discriminate.
Defined.


Lemma At_checked_witness :
  valid example_slack example_slack_heap
  ∧ 0 <= 1
  ∧ (GetSize example_slack <= 1 ->
       At 1 example_slack example_slack_heap
       = Throw (out_of_range "Index out of range") example_slack_heap)
  ∧ (1 < GetSize example_slack ->
       ∃ x, At 1 example_slack example_slack_heap
            = Ok (ArrayPtr_index (data_ example_slack) 1) example_slack_heap
            ∧ load (ArrayPtr_index (data_ example_slack) 1) example_slack_heap
              = Ok x example_slack_heap
            ∧ elements example_slack example_slack_heap !! Z.to_nat 1 = Some x)
  ∧ (forall r h', At 1 example_slack example_slack_heap = Ok r h' ->
                  1 < GetSize example_slack).
Proof.
  split; [exact example_slack_valid |].
  split; [lia |].
  apply (At_checked 1 example_slack example_slack_heap).
  - exact example_slack_valid.
  - lia.
Defined.


Lemma shrinking_keeps_capacity_witness :
  valid example_slack example_slack_heap
  ∧ (GetCapacity (Clear example_slack) = GetCapacity example_slack
     ∧ data_ (Clear example_slack) = data_ example_slack)
  ∧ (0 < GetSize example_slack ->
     ∃ this', PopBack example_slack example_slack_heap = Ok this' example_slack_heap
              ∧ GetCapacity this' = GetCapacity example_slack
              ∧ data_ this' = data_ example_slack)
  ∧ (forall pos,
       ptr_le (begin example_slack) pos = true ->
       ptr_lt pos (end_ example_slack) = true ->
       ∃ q this' h',
         Erase id pos example_slack example_slack_heap = Ok (q, this') h'
         ∧ GetCapacity this' = GetCapacity example_slack
         ∧ data_ this' = data_ example_slack
         ∧ dom h' = dom example_slack_heap
         ∧ length <$> slots this' h'
           = length <$> slots example_slack example_slack_heap)
  ∧ (forall new_size, new_size <= GetSize example_slack ->
       ∃ this', Resize 0 id new_size example_slack example_slack_heap
                = Ok this' example_slack_heap
                ∧ GetCapacity this' = GetCapacity example_slack
                ∧ data_ this' = data_ example_slack).
Proof.
  split; [exact example_slack_valid |].
  apply (shrinking_keeps_capacity 0 id example_slack example_slack_heap).
  exact example_slack_valid.
Defined.

(** A few runs, for orientation. *)
Example At_in_range :
  At 1 example_slack example_slack_heap
  = Ok {| block := Some 1%positive; index := 1 |} example_slack_heap
  ∧ load {| block := Some 1%positive; index := 1 |} example_slack_heap
    = Ok 8 example_slack_heap.
Proof. split; reflexivity. Qed.

Example At_size_throws :
  At 2 example_slack example_slack_heap
  = Throw (out_of_range "Index out of range") example_slack_heap.
Proof. reflexivity. Qed.

Example Reserve_below_size_of_a_copy :
  (B ← SimpleVector_copy 0 example_full; Reserve 0 id 1 B) example_full_heap
  = Undefined.
Proof. vm_compute. reflexivity. Qed.

Example copy_then_push_keeps_the_copy :
  ∃ B A' h',
    (B ← SimpleVector_copy 0 example_slack;
     A' ← PushBack 0 9 example_slack;
     mret (B, A')) example_slack_heap = Ok (B, A') h'
    ∧ elements A' h' = [7; 8; 9]
    ∧ elements B h' = [7; 8].
Proof. eexists _, _, _. split; [vm_compute; reflexivity |]. split; reflexivity. Qed.

Example assign_copy_between_two_objects :
  ∃ objs' h',
    assign_copy 0 2%positive 1%positive
      {[ 1%positive := example_full; 2%positive := SimpleVector_default ]}
      example_full_heap = Ok objs' h'
    ∧ objs' !! 1%positive = Some example_full
    ∧ objs' !! 2%positive
      = Some {| data_ := Some 2%positive; size_ := 2; capacity_ := 0 |}
    ∧ h' !! 1%positive = Some [5; 6]
    ∧ h' !! 2%positive = Some [5; 6].
Proof. eexists _, _. split; [vm_compute; reflexivity |]. split_and!; reflexivity. Qed.

Example assign_move_between_two_objects :
  ∃ objs' h',
    assign_move 2%positive 1%positive
      {[ 1%positive := example_full; 2%positive := SimpleVector_default ]}
      example_full_heap = Ok objs' h'
    ∧ objs' !! 1%positive = Some SimpleVector_default
    ∧ objs' !! 2%positive = Some example_full
    ∧ h' = example_full_heap.
Proof. eexists _, _. split; [vm_compute; reflexivity |]. split_and!; reflexivity. Qed.

(** ** The further properties at work *)

Lemma example_pair_valid :
  valid example_slack example_pair_heap ∧ valid example_three example_pair_heap.
Proof.
  split.
  - exists [7; 8; 0; 0]. split; [reflexivity | simpl; lia].
  - exists [7; 8; 9]. split; [reflexivity | simpl; lia].
Defined.

Lemma sized_constructors_correct_witness :
  0 <= 3
  ∧ (∃ this h',
       SimpleVector_size 0 3 ∅ = Ok this h'
       ∧ GetSize this = 3 ∧ GetCapacity this = 3
       ∧ elements this h' = replicate (Z.to_nat 3) 0)
  ∧ (∃ this h',
       SimpleVector_fill 0 3 7 ∅ = Ok this h'
       ∧ GetSize this = 3 ∧ GetCapacity this = 3
       ∧ elements this h' = replicate (Z.to_nat 3) 7).
Proof.
  split; [lia |].
  apply (sized_constructors_correct 0 3 7 ∅). lia.
Defined.

Lemma reserving_constructor_correct_witness :
  0 <= 4
  ∧ ∃ this h' buf,
      SimpleVector_proxy 0 id (Reserve_proxy 4) ∅ = Ok this h'
      ∧ GetSize this = 0
      ∧ GetCapacity this = 4
      ∧ elements this h' = []
      ∧ slots this h' = Some buf
      ∧ Z.of_nat (length buf) = 4.
Proof.
  split; [lia |].
  apply (reserving_constructor_correct 0 id 4 ∅). lia.
Defined.

Lemma subscript_correct_witness :
  valid example_slack example_slack_heap
  ∧ 0 <= 1
  ∧ (1 < GetSize example_slack ->
       ∃ x, subscript 1 example_slack example_slack_heap
            = Ok (ArrayPtr_index (data_ example_slack) 1) example_slack_heap
            ∧ load (ArrayPtr_index (data_ example_slack) 1) example_slack_heap
              = Ok x example_slack_heap
            ∧ elements example_slack example_slack_heap !! Z.to_nat 1 = Some x)
  ∧ (GetSize example_slack <= 1 ->
       subscript 1 example_slack example_slack_heap = Undefined).
Proof.
  split; [exact example_slack_valid |].
  split; [lia |].
  apply (subscript_correct 1 example_slack example_slack_heap).
  - exact example_slack_valid.
  - lia.
Defined.

Lemma observers_agree_witness :
  valid example_slack example_slack_heap
  ∧ GetSize example_slack
    = Z.of_nat (length (elements example_slack example_slack_heap))
  ∧ (IsEmpty example_slack = true
     <-> elements example_slack example_slack_heap = []).
Proof.
  split; [exact example_slack_valid |].
  apply (observers_agree example_slack example_slack_heap).
  exact example_slack_valid.
Defined.

Lemma iterator_range_is_live_witness :
  valid example_slack example_slack_heap
  ∧ ptr_diff (end_ example_slack) (begin example_slack) = GetSize example_slack
  ∧ cbegin example_slack = begin example_slack
  ∧ cend example_slack = end_ example_slack
  ∧ (forall pos,
       ptr_le (begin example_slack) pos = true ->
       ptr_lt pos (end_ example_slack) = true ->
       ∃ x, load pos example_slack_heap = Ok x example_slack_heap
            ∧ elements example_slack example_slack_heap
                !! Z.to_nat (ptr_diff pos (begin example_slack)) = Some x).
Proof.
  split; [exact example_slack_valid |].
  apply (iterator_range_is_live example_slack example_slack_heap).
  exact example_slack_valid.
Defined.

Lemma PopBack_removes_last_witness :
  valid example_slack example_slack_heap
  ∧ GetSize example_slack <= SIZE_MAX
  ∧ (0 < GetSize example_slack ->
       ∃ this' x,
         PopBack example_slack example_slack_heap = Ok this' example_slack_heap
         ∧ valid this' example_slack_heap
         ∧ GetSize this' = GetSize example_slack - 1
         ∧ elements example_slack example_slack_heap
           = elements this' example_slack_heap ++ [x])
  ∧ (GetSize example_slack = 0 ->
       PopBack example_slack example_slack_heap = Undefined).
Proof.
  split; [exact example_slack_valid |].
  split; [vm_compute; discriminate |].
  apply (PopBack_removes_last example_slack example_slack_heap).
  - exact example_slack_valid.
  - vm_compute. discriminate.
Defined.


Lemma PushBack_within_capacity_witness :
  valid example_slack example_slack_heap
  ∧ size_ example_slack + Z.of_nat (length [by_copy 9; by_move 10])
    <= capacity_ example_slack
  ∧ capacity_ example_slack <= PTRDIFF_MAX
  ∧ ∃ this' h',
      PushBack_calls 0 id [by_copy 9; by_move 10] example_slack example_slack_heap
      = Ok this' h'
      ∧ data_ this' = data_ example_slack
      ∧ GetCapacity this' = GetCapacity example_slack
      ∧ GetSize this'
        = GetSize example_slack + Z.of_nat (length [by_copy 9; by_move 10])
      ∧ elements this' h'
        = elements example_slack example_slack_heap
          ++ (pushed_item <$> [by_copy 9; by_move 10])
      ∧ dom h' = dom example_slack_heap
      ∧ (forall b l, example_slack_heap !! b = Some l ->
           data_ example_slack ≠ Some b -> h' !! b = Some l).
Proof.
  split; [exact example_slack_valid |].
  split; [simpl; lia |].
  split; [vm_compute; discriminate |].
  apply (PushBack_within_capacity 0 id [by_copy 9; by_move 10]
           example_slack example_slack_heap).
  - exact example_slack_valid.
  - simpl. lia.
  - vm_compute. discriminate.
Defined.

Lemma Clear_then_PushBack_witness :
  valid example_slack example_slack_heap
  ∧ 0 < GetCapacity example_slack
  ∧ GetCapacity example_slack <= PTRDIFF_MAX
  ∧ elements (Clear example_slack) example_slack_heap = []
  ∧ ∃ this' h',
      PushBack 0 9 (Clear example_slack) example_slack_heap = Ok this' h'
      ∧ data_ this' = data_ example_slack
      ∧ GetCapacity this' = GetCapacity example_slack
      ∧ elements this' h' = [9]
      ∧ dom h' = dom example_slack_heap.
Proof.
  split; [exact example_slack_valid |].
  split; [simpl; lia |].
  split; [vm_compute; discriminate |].
  apply (Clear_then_PushBack 0 id 9 example_slack example_slack_heap).
  - exact example_slack_valid.
  - simpl. lia.
  - vm_compute. discriminate.
Defined.

Lemma Reserve_releases_old_block_witness :
  valid example_slack example_slack_heap
  ∧ I1 example_slack
  ∧ GetCapacity example_slack < 9
  ∧ ∃ this' h' a,
      Reserve 0 id 9 example_slack example_slack_heap = Ok this' h'
      ∧ data_ this' = Some a
      ∧ example_slack_heap !! a = None
      ∧ (forall o, data_ example_slack = Some o -> h' !! o = None)
      ∧ (forall b l, example_slack_heap !! b = Some l ->
           data_ example_slack ≠ Some b -> h' !! b = Some l)
      ∧ (forall b, is_Some (h' !! b) ->
           b = a ∨ is_Some (example_slack_heap !! b)).
Proof.
  split; [exact example_slack_valid |].
  split; [unfold I1; simpl; lia |].
  split; [simpl; lia |].
  apply (Reserve_releases_old_block 0 id example_slack example_slack_heap 9).
  - exact example_slack_valid.
  - unfold I1. simpl. lia.
  - simpl. lia.
Defined.



Lemma Erase_elements_witness :
  valid example_full example_full_heap
  ∧ size_ example_full <= SIZE_MAX
  ∧ ptr_le (begin example_full) (begin example_full) = true
  ∧ ptr_lt (begin example_full) (end_ example_full) = true
  ∧ ∃ this' h',
      Erase id (begin example_full) example_full example_full_heap
      = Ok (begin example_full, this') h'
      ∧ valid this' h'
      ∧ size_ this' = size_ example_full - 1
      ∧ capacity_ this' = capacity_ example_full
      ∧ elements this' h'
        = take (Z.to_nat (index (begin example_full)))
            (elements example_full example_full_heap)
          ++ drop (S (Z.to_nat (index (begin example_full))))
               (elements example_full example_full_heap).
Proof.
  split; [exact example_full_valid |].
  split; [vm_compute; discriminate |].
  split; [reflexivity |].
  split; [reflexivity |].
  apply (Erase_elements id (begin example_full) example_full example_full_heap).
  - exact example_full_valid.
  - vm_compute. discriminate.
  - reflexivity.
  - reflexivity.
Defined.


Lemma Erase_last_is_PopBack_witness :
  0 < GetSize example_full
  ∧ ∃ this',
      PopBack example_full example_full_heap = Ok this' example_full_heap
      ∧ Erase id (ptr_add (end_ example_full) (-1)) example_full example_full_heap
        = Ok (ptr_add (end_ example_full) (-1), this') example_full_heap.
Proof.
  split; [simpl; lia |].
  apply (Erase_last_is_PopBack id example_full example_full_heap).
  simpl. lia.
Defined.


Lemma move_assignment_correct_witness :
  1%positive ≠ 2%positive
  ∧ example_objects !! 1%positive = Some example_slack
  ∧ example_objects !! 2%positive = Some example_three
  ∧ valid example_slack example_pair_heap
  ∧ (forall a, data_ example_slack = Some a -> data_ example_three ≠ Some a)
  ∧ ∃ h',
      assign_move 1%positive 2%positive example_objects example_pair_heap
      = Ok (<[2%positive := SimpleVector_default]>
              (<[1%positive := example_three]> example_objects)) h'
      ∧ elements example_three h' = elements example_three example_pair_heap
      ∧ (forall o, data_ example_slack = Some o -> h' !! o = None)
      ∧ (forall b l, example_pair_heap !! b = Some l ->
           data_ example_slack ≠ Some b -> h' !! b = Some l).
Proof.
  split; [discriminate |].
  split; [reflexivity |].
  split; [reflexivity |].
  split; [exact (proj1 example_pair_valid) |].
  split; [simpl; intros a [= <-]; discriminate |].
  apply (move_assignment_correct 1%positive 2%positive example_objects
           example_slack example_three example_pair_heap).
  - discriminate.
  - reflexivity.
  - reflexivity.
  - exact (proj1 example_pair_valid).
  - simpl. intros a [= <-]. discriminate.
Defined.

Lemma operator_eq_correct_witness :
  (forall x y, (x =? y) = true <-> x = y)
  ∧ valid example_slack example_pair_heap
  ∧ valid example_three example_pair_heap
  ∧ ∃ b,
      operator_eq Z.eqb example_slack example_three example_pair_heap
      = Ok b example_pair_heap
      ∧ operator_ne Z.eqb example_slack example_three example_pair_heap
        = Ok (negb b) example_pair_heap
      ∧ (b = true <-> elements example_slack example_pair_heap
                      = elements example_three example_pair_heap).
Proof.
  split; [exact Z.eqb_eq |].
  split; [exact (proj1 example_pair_valid) |].
  split; [exact (proj2 example_pair_valid) |].
  apply (operator_eq_correct Z.eqb example_slack example_three example_pair_heap).
  - exact Z.eqb_eq.
  - exact (proj1 example_pair_valid).
  - exact (proj2 example_pair_valid).
Defined.

Lemma ordering_operators_lexicographic_witness :
  valid example_slack example_pair_heap
  ∧ valid example_three example_pair_heap
  ∧ operator_lt Z.ltb example_slack example_three example_pair_heap
    = Ok (lexicographic Z.ltb (elements example_slack example_pair_heap)
            (elements example_three example_pair_heap)) example_pair_heap
  ∧ operator_gt Z.ltb example_slack example_three example_pair_heap
    = Ok (lexicographic Z.ltb (elements example_three example_pair_heap)
            (elements example_slack example_pair_heap)) example_pair_heap
  ∧ operator_le Z.ltb example_slack example_three example_pair_heap
    = Ok (negb (lexicographic Z.ltb (elements example_three example_pair_heap)
                  (elements example_slack example_pair_heap))) example_pair_heap
  ∧ operator_ge Z.ltb example_slack example_three example_pair_heap
    = Ok (negb (lexicographic Z.ltb (elements example_slack example_pair_heap)
                  (elements example_three example_pair_heap))) example_pair_heap.
Proof.
  split; [exact (proj1 example_pair_valid) |].
  split; [exact (proj2 example_pair_valid) |].
  apply (ordering_operators_lexicographic Z.ltb example_slack example_three
           example_pair_heap).
  - exact (proj1 example_pair_valid).
  - exact (proj2 example_pair_valid).
Defined.

Lemma prefix_is_less_witness :
  (forall x, (x <? x) = false)
  ∧ valid example_slack example_pair_heap
  ∧ valid example_three example_pair_heap
  ∧ elements example_three example_pair_heap
    = elements example_slack example_pair_heap ++ [9]
  ∧ [9] ≠ []
  ∧ operator_lt Z.ltb example_slack example_slack example_pair_heap
    = Ok false example_pair_heap
  ∧ operator_lt Z.ltb example_slack example_three example_pair_heap
    = Ok true example_pair_heap
  ∧ operator_lt Z.ltb example_three example_slack example_pair_heap
    = Ok false example_pair_heap.
Proof.
  split; [exact Z.ltb_irrefl |].
  split; [exact (proj1 example_pair_valid) |].
  split; [exact (proj2 example_pair_valid) |].
  split; [reflexivity |].
  split; [discriminate |].
  apply (prefix_is_less Z.ltb example_slack example_three example_pair_heap [9]).
  - exact Z.ltb_irrefl.
  - exact (proj1 example_pair_valid).
  - exact (proj2 example_pair_valid).
  - reflexivity.
  - discriminate.
Defined.

Lemma comparison_trichotomy_witness :
  (forall x y, (x =? y) = true <-> x = y)
  ∧ (forall x y, (x <? y) = true -> (y <? x) = false)
  ∧ (forall x y, (x <? y) = false -> (y <? x) = false -> x = y)
  ∧ valid example_slack example_pair_heap
  ∧ valid example_three example_pair_heap
  ∧ ∃ lt eq gt,
      operator_lt Z.ltb example_slack example_three example_pair_heap
      = Ok lt example_pair_heap
      ∧ operator_eq Z.eqb example_slack example_three example_pair_heap
        = Ok eq example_pair_heap
      ∧ operator_gt Z.ltb example_slack example_three example_pair_heap
        = Ok gt example_pair_heap
      ∧ operator_le Z.ltb example_slack example_three example_pair_heap
        = Ok (lt || eq) example_pair_heap
      ∧ operator_ge Z.ltb example_slack example_three example_pair_heap
        = Ok (gt || eq) example_pair_heap
      ∧ ((lt, eq, gt) = (true, false, false)
         ∨ (lt, eq, gt) = (false, true, false)
         ∨ (lt, eq, gt) = (false, false, true)).
Proof.
  split; [exact Z.eqb_eq |].
  split; [intros x y; lia |].
  split; [intros x y; lia |].
  split; [exact (proj1 example_pair_valid) |].
  split; [exact (proj2 example_pair_valid) |].
  apply (comparison_trichotomy Z.eqb Z.ltb example_slack example_three
           example_pair_heap).
  - exact Z.eqb_eq.
  - intros x y. lia.
  - intros x y. lia.
  - exact (proj1 example_pair_valid).
  - exact (proj2 example_pair_valid).
Defined.

Lemma Resize_down_then_up_witness :
  valid example_slack example_slack_heap
  ∧ doubling_fits example_slack
  ∧ 0 <= 1 <= GetSize example_slack
  ∧ 1 <= 3
  ∧ ∃ this1 this2 h2,
      Resize 0 id 1 example_slack example_slack_heap = Ok this1 example_slack_heap
      ∧ Resize 0 id 3 this1 example_slack_heap = Ok this2 h2
      ∧ GetSize this2 = 3
      ∧ elements this2 h2
        = take (Z.to_nat 1) (elements example_slack example_slack_heap)
          ++ replicate (Z.to_nat (3 - 1)) 0
      ∧ (3 <= GetCapacity example_slack ->
           data_ this2 = data_ example_slack
           ∧ GetCapacity this2 = GetCapacity example_slack
           ∧ dom h2 = dom example_slack_heap).
Proof.
  split; [exact example_slack_valid |].
  split; [vm_compute; discriminate |].
  split; [simpl; lia |].
  split; [lia |].
  apply (Resize_down_then_up 0 id example_slack example_slack_heap 1 3).
  - exact example_slack_valid.
  - vm_compute. discriminate.
  - simpl. lia.
  - lia.
Defined.
